(** * reloadcache: the Keep coordination actor and its fetch executor

    A shallow embedding of [keep.go].  The actor ([Keep.run]) owns a table
    of per-path entries, answers [fetching] messages with a leader signal or
    by queueing the sender, fans the result of a [fetched] message out to the
    queued waiters, and re-arms one timer from the entries' ages
    ([Keep.serviceTimer], [Keep.fetchExpired], [Keep.shortestTimeout]).
    The executor ([Keep.fetch]) performs one upstream GET and always reports
    back with a [fetched] message.

    Modelling conventions.
    - A [time.Time] is its monotonic reading in nanoseconds, a [Z]; Go
      compares two readings of [time.Now] by that component.  Durations are
      [Z] nanoseconds.  Readings stay far from the 64-bit range (292 years),
      so [Add] and [Sub] are written without saturation.
    - [time.Now] is the only input the actor reads besides its messages.  The
      clock is an oracle of non-negative advances, one per call; readings
      are therefore non-decreasing, and two calls may return the same
      reading (a coarse clock).
    - A channel is its identity.  What the actor does to a channel
      ([close], a send), what it prints and the goroutines it starts are
      recorded, in program order, as the effects of a step.  A send is taken
      to complete: the follower owning a queued channel is blocked receiving
      on it, and reply channels are private to one [fetching] message.
    - The actor loop is driven by a list of events, each a message or the
      fire of the armed timer; when the timer fires is left to the
      environment.  The [for] of [serviceTimer] runs on a budget of turns.
    - [range] over the entry table visits every key once in an order Go
      leaves unspecified.  The loops are written over the list of visited
      (key, entry) pairs; the table's own enumeration is used to run them,
      and the results that matter are shown independent of the order. *)

From Stdlib Require Import ZArith NArith List String Ascii Lia Permutation.
From stdpp Require Import base option list gmap strings fin_maps.
Import ListNotations.

Local Open Scope Z_scope.

(** ** Time *)

Definition Time := Z.
Definition Duration := Z.

Definition Second : Duration := 1000000000.

(** [const expireDuration time.Duration = time.Duration(10) * time.Second] *)
Definition expireDuration : Duration := 10 * Second.

Definition Before (t u : Time) : bool := t <? u.
Definition Add (t : Time) (d : Duration) : Time := t + d.
Definition Sub (t u : Time) : Duration := t - u.

Record clock := mkClock {
  reading : Time;        (* the last value [time.Now] returned *)
  reads : nat;           (* how many times it has been called *)
  tick : nat -> N        (* advance before the n-th call *)
}.

Definition clock_Now (c : clock) : Time * clock :=
  let t := reading c + Z.of_N (tick c (reads c)) in
  (t, mkClock t (S (reads c)) (tick c)).

(** ** Data model *)

Definition chan := nat.
Definition ResponseWriter := nat.
Definition bytes := list Byte.byte.

(** Go's [int] on a 64-bit target: [count++] wraps around. *)
Definition wrap64 (z : Z) : Z := (z + 2 ^ 63) mod 2 ^ 64 - 2 ^ 63.

Record EntryInfo := mkEntryInfo {
  path : string;
  count : Z;
  lastFetched : Time;
  fetching : bool
}.

Record entry := mkEntry {
  info : EntryInfo;
  waiters : list chan
}.

Definition set_count (n : Z) (e : entry) : entry :=
  mkEntry (mkEntryInfo (path (info e)) n (lastFetched (info e)) (fetching (info e)))
          (waiters e).
Definition set_lastFetched (t : Time) (e : entry) : entry :=
  mkEntry (mkEntryInfo (path (info e)) (count (info e)) t (fetching (info e)))
          (waiters e).
Definition set_fetching (b : bool) (e : entry) : entry :=
  mkEntry (mkEntryInfo (path (info e)) (count (info e)) (lastFetched (info e)) b)
          (waiters e).
Definition set_waiters (ws : list chan) (e : entry) : entry :=
  mkEntry (info e) ws.

Inductive keepMessage :=
| requestKeepMessage (path : string)
| fetchingKeepMessage (path : string) (waiter : chan)
| fetchedKeepMessage (path : string) (data : option bytes).

Definition Path (msg : keepMessage) : string :=
  match msg with
  | requestKeepMessage p => p
  | fetchingKeepMessage p _ => p
  | fetchedKeepMessage p _ => p
  end.

(** [timer] is [Some d] while a [time.Timer] created by [time.NewTimer(d)]
    is held, [None] for the nil pointer. *)
Record Keep := mkKeep {
  entries : gmap string entry;
  timer : option Duration
}.

Definition NewKeep : Keep := mkKeep ∅ None.

(** ** Effects and the actor's monad *)

Inductive effect :=
| Printf (s : string)
| Close (c : chan)                               (* close(c) *)
| Send (c : chan) (data : bytes)                 (* c <- data *)
| Go_fetch (p : string) (w : option ResponseWriter)  (* go k.fetch(p, w) *)
| NewTimer (d : Duration).                       (* time.NewTimer(d) *)

Record world := mkWorld {
  keep : Keep;
  clk : clock
}.

Inductive result (A : Type) :=
| Ok (a : A)
| Panic (msg : string)     (* the goroutine panicked *)
| Blocked                  (* the selected case was not ready *)
| OutOfFuel.               (* the iteration budget of a [for] ran out *)
Arguments Ok {A} a.
Arguments Panic {A} msg.
Arguments Blocked {A}.
Arguments OutOfFuel {A}.

Definition M (A : Type) : Type := world -> result (A * world * list effect).

Definition ret {A} (a : A) : M A := fun w => Ok (a, w, []).

Definition bind {A B} (f : A -> M B) (m : M A) : M B :=
  fun w =>
    match m w with
    | Ok (a, w1, o1) =>
        match f a w1 with
        | Ok (b, w2, o2) => Ok (b, w2, o1 ++ o2)
        | Panic s => Panic s
        | Blocked => Blocked
        | OutOfFuel => OutOfFuel
        end
    | Panic s => Panic s
    | Blocked => Blocked
    | OutOfFuel => OutOfFuel
    end.

#[global] Instance M_ret : MRet M := @ret.
#[global] Instance M_bind : MBind M := @bind.

Definition panic {A} (msg : string) : M A := fun _ => Panic msg.
Definition blocked {A} : M A := fun _ => Blocked.
Definition out_of_fuel {A} : M A := fun _ => OutOfFuel.
Definition emit (e : effect) : M unit := fun w => Ok (tt, w, [e]).
Definition time_Now : M Time :=
  fun w => let '(t, c) := clock_Now (clk w) in Ok (t, mkWorld (keep w) c, []).
Definition get_entries : M (gmap string entry) :=
  fun w => Ok (entries (keep w), w, []).
Definition get_timer : M (option Duration) :=
  fun w => Ok (timer (keep w), w, []).
Definition set_entry (p : string) (e : entry) : M unit :=
  fun w => Ok (tt, mkWorld (mkKeep (<[p := e]> (entries (keep w))) (timer (keep w)))
                           (clk w), []).
Definition set_timer (t : option Duration) : M unit :=
  fun w => Ok (tt, mkWorld (mkKeep (entries (keep w)) t) (clk w), []).

(** [for _, x := range l { body x }] *)
Fixpoint range {A} (l : list A) (body : A -> M unit) : M unit :=
  match l with
  | [] => ret tt
  | x :: l' => body x ;; range l' body
  end.

Definition nl : string := String (ascii_of_nat 10) EmptyString.

(** ** The actor: one message *)

(** Lines 206-212 of [run]: look the entry up, or make one stamped with the
    current time. *)
Definition lookup_or_create (p : string) : M entry :=
  es ← get_entries;
  match es !! p with
  | Some e => ret e
  | None =>
      now ← time_Now;
      ret (mkEntry (mkEntryInfo p 0 now false) [])
  end.

(** The body of the [range] over the waiters in the [fetched] case. *)
Definition fan_out (data : option bytes) (waiter : chan) : M unit :=
  match data with
  | Some d =>
      emit (Printf ("satisfying waiter" +:+ nl)) ;;
      emit (Send waiter d)
  | None => emit (Close waiter)
  end.

(** Lines 213-243 of [run]: the type switch, then [k.entries[path] = e]. *)
Definition handle_message (msg : keepMessage) : M unit :=
  let p := Path msg in
  e ← lookup_or_create p;
  e' ← match msg with
        | requestKeepMessage _ =>
            ret (set_count (wrap64 (count (info e) + 1)) e)
        | fetchingKeepMessage _ waiter =>
            if fetching (info e) then
              emit (Printf ("adding waiter" +:+ nl)) ;;
              ret (set_waiters (waiters e ++ [waiter]) e)
            else
              emit (Close waiter) ;;
              ret (set_fetching true e)
        | fetchedKeepMessage _ data =>
            if negb (fetching (info e)) then
              panic "We got a fetched, but we're not fetching"
            else
              now ← time_Now;
              let e1 := set_fetching false (set_lastFetched now e) in
              match data with
              | None => emit (Printf ("no data fetched" +:+ nl))
              | Some _ => ret tt
              end ;;
              range (waiters e1) (fan_out data) ;;
              ret (set_waiters [] e1)
        end;
  set_entry p e'.

(** ** The expiry scheduler *)

(** The body of the [range] in [fetchExpired], for the entry [e] visited
    under key [key]; [e] is a pointer into the table, so setting its flag
    updates the table in place. *)
Definition fetchExpired_body (now : Time) (x : string * entry) : M unit :=
  let '(key, e) := x in
  if fetching (info e) then ret tt
  else if Before (Add (lastFetched (info e)) expireDuration) now then
    emit (Printf ("fetching " +:+ path (info e) +:+ nl)) ;;
    set_entry key (set_fetching true e) ;;
    emit (Go_fetch (path (info e)) None)
  else ret tt.

Definition fetchExpired : M unit :=
  emit (Printf ("fetching expired" +:+ nl)) ;;
  now ← time_Now;
  es ← get_entries;
  range (map_to_list es) (fetchExpired_body now).

(** The body of the [range] in [shortestTimeout], on the pair
    ([earliest], [expiring]). *)
Definition shortestTimeout_body (acc : Time * bool) (x : string * entry)
  : Time * bool :=
  let '(earliest, expiring) := acc in
  let e := x.2 in
  if fetching (info e) then (earliest, expiring)
  else if Before (lastFetched (info e)) earliest
       then (lastFetched (info e), true)
       else (earliest, expiring).

Definition shortestTimeout_range (now : Time) (l : list (string * entry))
  : Time * bool :=
  fold_left shortestTimeout_body l (now, false).

Definition shortestTimeout : M (Duration * bool) :=
  now ← time_Now;
  es ← get_entries;
  let '(earliest, expiring) := shortestTimeout_range now (map_to_list es) in
  let expires := Add earliest expireDuration in
  if Before expires now then ret (0, expiring)
  else ret (Sub expires now, expiring).

(** What one turn of the [for] in [serviceTimer] ends with. *)
Inductive turn := Returned | Again.

Definition serviceTimer_turn : M turn :=
  fetchExpired ;;
  '(duration, expiring) ← shortestTimeout;
  if negb expiring then ret Returned
  else if 0 <? duration then
    emit (NewTimer duration) ;;
    set_timer (Some duration) ;;
    ret Returned
  else ret Again.

(** The [for] of [serviceTimer], with a budget of [fuel] turns. *)
Fixpoint serviceTimer_loop (fuel : nat) : M unit :=
  match fuel with
  | O => out_of_fuel
  | S fuel' =>
      t ← serviceTimer_turn;
      match t with
      | Returned => ret tt
      | Again => serviceTimer_loop fuel'
      end
  end.

Definition serviceTimer (fuel : nat) : M unit :=
  t ← get_timer;
  match t with
  | Some _ => ret tt
  | None => serviceTimer_loop fuel
  end.

(** ** The actor loop *)

(** What [select] can receive: a message, or the timer's fire. *)
Inductive event :=
| Message (msg : keepMessage)
| TimerFired.

(** One turn of the [for] in [run].  A nil timer has a nil channel, whose
    case is never ready. *)
Definition run_turn (fuel : nat) (ev : event) : M unit :=
  match ev with
  | Message msg => handle_message msg
  | TimerFired =>
      t ← get_timer;
      match t with
      | Some _ => set_timer None
      | None => blocked
      end
  end ;;
  serviceTimer fuel.

Fixpoint run_loop (fuel : nat) (evs : list event) : M unit :=
  match evs with
  | [] => ret tt
  | ev :: evs' => run_turn fuel ev ;; run_loop fuel evs'
  end.

(** [run], driven through the events [evs]. *)
Definition run (fuel : nat) (evs : list event) : M unit :=
  serviceTimer fuel ;; run_loop fuel evs.

(** ** The fetch executor *)

Module Fetch.

(** [strings.Split(s, sep)] for a separator of one character: the pieces of
    [s] between its occurrences, never an empty list. *)
Fixpoint Split (s : string) (sep : ascii) : list string :=
  match s with
  | EmptyString => [EmptyString]
  | String c s' =>
      if Ascii.eqb c sep then EmptyString :: Split s' sep
      else match Split s' sep with
           | piece :: pieces => String c piece :: pieces
           | [] => [String c EmptyString]
           end
  end.

(** [strings.Split(contentType, ";")[0]] *)
Definition mediaType (contentType : string) : string :=
  hd EmptyString (Split contentType ";"%char).

Definition StatusOK : Z := 200.
Definition StatusBadRequest : Z := 400.

Record Request := mkRequest { method : string; url : string }.

(** A response, as far as [fetch] looks at it: the value of
    [resp.Header.Get("Content-Type")], and the body as a token handed to
    [io.Copy]. *)
Record Response := mkResponse { ContentType : string; Body : nat }.

Definition error := string.

(** The collaborators of one invocation.  [io_Copy w body] is what
    [io.Copy] returns and leaves in the buffer when copying [body] to the
    buffer alone ([w = None]) or to the sink and the buffer. *)
Record upstream := mkUpstream {
  http_NewRequest : string -> string -> Request + error;
  http_Do : Request -> Response + error;
  io_Copy : option ResponseWriter -> nat -> bytes * option error
}.

Inductive effect :=
| Printf (s : string)
| http_Error (w : ResponseWriter) (msg : string) (code : Z)
| WriteHeader (w : ResponseWriter) (code : Z)
| Go_Cache_Set (p : string) (data : bytes)       (* go func() { k.Cache.Set(p, data) } *)
| sendFetchedMessage (p : string) (data : option bytes).

(** The body of [fetch]: the returned error, the final value of [dataPtr],
    and the effects in program order. *)
Definition fetch_body (u : upstream) (p : string)
    (responseWriter : option ResponseWriter)
  : option error * option bytes * list effect :=
  match http_NewRequest u "GET" ("http://localhost:8085" +:+ p) with
  | inr err => (Some err, None, [Printf ("request construction error" +:+ nl)])
  | inl req =>
      match http_Do u req with
      | inr err => (Some err, None, [Printf ("request error" +:+ nl)])
      | inl resp =>
          if negb (String.eqb (mediaType (ContentType resp)) "application/json")
          then
            (None, None,
             match responseWriter with
             | Some w => [http_Error w "Endpoint does not return JSON" StatusBadRequest]
             | None => []
             end ++ [Printf ("not JSON" +:+ nl)])
          else
            let headers :=
              match responseWriter with
              | None => []
              | Some w => [WriteHeader w StatusOK]
              end in
            match io_Copy u responseWriter (Body resp) with
            | (_, Some _) =>
                (None, None, headers ++ [Printf ("copy error" +:+ nl)])
            | (data, None) =>
                (None, Some data, headers ++ [Go_Cache_Set p data])
            end
      end
  end.

(** [fetch]: the body, then the deferred [k.sendFetchedMessage(path, dataPtr)]. *)
Definition fetch (u : upstream) (p : string)
    (responseWriter : option ResponseWriter) : option error * list effect :=
  let '(err, dataPtr, effects) := fetch_body u p responseWriter in
  (err, effects ++ [sendFetchedMessage p dataPtr]).

Definition is_fetched (e : effect) : bool :=
  match e with sendFetchedMessage _ _ => true | _ => false end.

Definition is_Cache_Set (e : effect) : bool :=
  match e with Go_Cache_Set _ _ => true | _ => false end.

(** The body was copied in full: every step up to and including [io.Copy]
    succeeded, leaving [data] in the buffer. *)
Definition copied (u : upstream) (p : string)
    (responseWriter : option ResponseWriter) (data : bytes) : Prop :=
  exists req resp,
    http_NewRequest u "GET" ("http://localhost:8085" +:+ p) = inl req /\
    http_Do u req = inl resp /\
    mediaType (ContentType resp) = "application/json" /\
    io_Copy u responseWriter (Body resp) = (data, None).

(** What a live sink is told when the response is not JSON. *)
Definition rejection (responseWriter : option ResponseWriter) : list effect :=
  match responseWriter with
  | Some w => [http_Error w "Endpoint does not return JSON" StatusBadRequest]
  | None => []
  end.

(** An upstream answering every request with the same content type and a
    body that copies without error. *)
Definition answering (contentType : string) (data : bytes) : upstream :=
  mkUpstream (fun m u => inl (mkRequest m u))
             (fun _ => inl (mkResponse contentType 0))
             (fun _ _ => (data, None)).

End Fetch.

(** ** Observations on states and effects *)

(** The [fetching] flag of the entry a message for [p] will find: that of
    the table's entry, or [false] for the entry created on a miss. *)
Definition flag (k : Keep) (p : string) : bool :=
  match entries k !! p with
  | Some e => fetching (info e)
  | None => false
  end.

(** The waiters queued on [p]. *)
Definition queue (k : Keep) (p : string) : list chan :=
  match entries k !! p with
  | Some e => waiters e
  | None => []
  end.

(** The channels closed, the sends made and the background fetches started
    by a list of effects, in order. *)
Fixpoint closes (o : list effect) : list chan :=
  match o with
  | [] => []
  | Close c :: o' => c :: closes o'
  | _ :: o' => closes o'
  end.

Fixpoint sends (o : list effect) : list (chan * bytes) :=
  match o with
  | [] => []
  | Send c d :: o' => (c, d) :: sends o'
  | _ :: o' => sends o'
  end.

Fixpoint launches (o : list effect) : list (string * option ResponseWriter) :=
  match o with
  | [] => []
  | Go_fetch p w :: o' => (p, w) :: launches o'
  | _ :: o' => launches o'
  end.

(** The reading the next call of [time.Now] returns. *)
Definition next_reading (c : clock) : Time := (clock_Now c).1.

(** Every entry that is not fetching has no waiters. *)
Definition idle_has_no_waiters (k : Keep) : Prop :=
  forall p e, entries k !! p = Some e ->
    fetching (info e) = false -> waiters e = [].

(** No entry is stamped later than the clock's last reading. *)
Definition stamped_in_the_past (w : world) : Prop :=
  forall p e, entries (keep w) !! p = Some e ->
    lastFetched (info e) <= reading (clk w).

(** [ev] is a [fetched] message for [p]. *)
Definition is_fetched_for (p : string) (ev : event) : Prop :=
  exists data, ev = Message (fetchedKeepMessage p data).

(** The test of [fetchExpired] on one entry, and its effect on it. *)
Definition expired (now : Time) (e : entry) : bool :=
  negb (fetching (info e)) &&
  Before (Add (lastFetched (info e)) expireDuration) now.

Definition sweep_entry (now : Time) (e : entry) : entry :=
  if expired now e then set_fetching true e else e.

(** The entries a sweep may still pick up: those not fetching. *)
Definition idle (x : string * entry) : bool := negb (fetching (info x.2)).

Definition refreshable (k : Keep) : nat :=
  length (List.filter idle (map_to_list (entries k))).

(** Some idle entry's deadline is at or before the clock's last reading. *)
Definition due (w : world) : Prop :=
  exists p e, entries (keep w) !! p = Some e /\
    fetching (info e) = false /\
    lastFetched (info e) + expireDuration <= reading (clk w).

(** No idle entry is stamped before the clock's last reading: what
    [shortestTimeout] reports as [expiring = false]. *)
Definition nothing_expiring (w : world) : Prop :=
  forall p e, entries (keep w) !! p = Some e ->
    fetching (info e) = false -> reading (clk w) <= lastFetched (info e).

(** Every call of [time.Now] returns a reading later than the one before. *)
Definition advancing (c : clock) : Prop := forall n, (0 < tick c n)%N.

(** One turn of the scheduler's loop makes progress in the sense of the
    design: it returns with a timer armed, returns with nothing eligible,
    or leaves fewer idle entries than it found. *)
Definition turn_progresses (w : world) : Prop :=
  forall t w' o, serviceTimer_turn w = Ok (t, w', o) ->
    (t = Returned /\ exists d, timer (keep w') = Some d /\ 0 < d) \/
    (t = Returned /\ timer (keep w') = None) \/
    (refreshable (keep w') < refreshable (keep w))%nat.

(** The earliest stamp among the idle entries of [l], capped by [now]. *)
Definition earliest_of (now : Time) (l : list (string * entry)) : Time :=
  fold_right Z.min now (map (fun x => lastFetched (info x.2)) (List.filter idle l)).

(** The entry a message for [p] works on: the table's, or the one created
    on a miss, stamped with the next reading. *)
Definition found (w : world) (p : string) : entry :=
  match entries (keep w) !! p with
  | Some e => e
  | None => mkEntry (mkEntryInfo p 0 (next_reading (clk w)) false) []
  end.

(** What the type switch of [run] makes of the entry [e], when it does not
    panic; [now] is the reading taken in the [fetched] case. *)
Definition switched (msg : keepMessage) (now : Time) (e : entry) : entry :=
  match msg with
  | requestKeepMessage _ => set_count (wrap64 (count (info e) + 1)) e
  | fetchingKeepMessage _ waiter =>
      if fetching (info e) then set_waiters (waiters e ++ [waiter]) e
      else set_fetching true e
  | fetchedKeepMessage _ _ =>
      set_waiters [] (set_fetching false (set_lastFetched now e))
  end.

(** The clock [c'] is [c] after some calls of [time.Now]. *)
Definition later_clock (c c' : clock) : Prop :=
  reading c <= reading c' /\ tick c' = tick c.

(** What visiting one pair in [fetchExpired] does to the table and which
    effects it has. *)
Definition sweep_step (now : Time) (m : gmap string entry)
    (x : string * entry) : gmap string entry :=
  if expired now x.2 then <[x.1 := set_fetching true x.2]> m else m.

Definition sweep_effects (now : Time) (x : string * entry) : list effect :=
  if expired now x.2
  then [Printf ("fetching " +:+ path (info x.2) +:+ nl);
        Go_fetch (path (info x.2)) None]
  else [].

(** The world after the sweep of [fetchExpired]. *)
Definition after_sweep (w : world) : world :=
  mkWorld (mkKeep (sweep_entry (next_reading (clk w)) <$> entries (keep w))
                  (timer (keep w)))
          (clock_Now (clk w)).2.

(** [e'] is [e], possibly with an idle entry's flag raised: all the
    scheduler ever does to an entry. *)
Definition marked (e e' : entry) : Prop :=
  e' = e \/ (fetching (info e) = false /\ e' = set_fetching true e).

Definition only_marks (m m' : gmap string entry) : Prop :=
  forall p, option_Forall2 marked (m !! p) (m' !! p).

(** ** Sample states *)

Definition constant_clock (t0 : Time) (d : N) : clock := mkClock t0 0 (fun _ => d).

Definition fresh_entry (p : string) (t : Time) : entry :=
  mkEntry (mkEntryInfo p 0 t false) [].

Definition one_entry (p : string) (e : entry) (c : clock) : world :=
  mkWorld (mkKeep {[ p := e ]} None) c.

Definition fetching_with_waiters : world :=
  one_entry "/a" (mkEntry (mkEntryInfo "/a" 1 5 true) [7%nat; 8%nat])
            (constant_clock 100 1).

(** One idle entry stamped at 0, and a clock that reads 5 ns before the
    entry's deadline at the sweep and 5 ns after it at the deadline
    computation. *)
Definition lagging_world : world :=
  one_entry "/a" (fresh_entry "/a" 0) (constant_clock (expireDuration - 15) 10).

(** One idle entry stamped at 0, and a clock stuck at exactly its
    deadline, after [n] readings. *)
Definition stuck_world (n : nat) : world :=
  one_entry "/a" (fresh_entry "/a" 0) (mkClock expireDuration n (fun _ => 0%N)).

(** An empty table and a coarse clock: it moves by a millisecond at every
    fifth call and stands still in between. *)
Definition coarse_clock : clock :=
  mkClock 100 0 (fun n => if (n mod 5 =? 0)%nat then 1000000%N else 0%N).

Definition coarse_world : world := mkWorld NewKeep coarse_clock.

(** Two idle entries, one long overdue, and a clock advancing by 1 ns. *)
Definition two_entries : world :=
  mkWorld (mkKeep {[ "/a" := fresh_entry "/a" 0;
                     "/b" := fresh_entry "/b" (2 * expireDuration) ]} None)
          (constant_clock (2 * expireDuration) 1).

(** ** Observations on runs *)

(** Every entry is stored under its own path. *)
Definition path_keyed (k : Keep) : Prop :=
  forall p e, entries k !! p = Some e -> path (info e) = p.

(** The [count] of [p]'s entry, 0 when there is none. *)
Definition count_of (k : Keep) (p : string) : Z :=
  match entries k !! p with
  | Some e => count (info e)
  | None => 0
  end.

(** How many of the events are [request] messages for [p]. *)
Fixpoint requests_for (p : string) (evs : list event) : nat :=
  match evs with
  | [] => O
  | Message (requestKeepMessage q) :: evs' =>
      if String.eqb q p then S (requests_for p evs') else requests_for p evs'
  | _ :: evs' => requests_for p evs'
  end.

(** The reply channels of the [fetching] messages for [p] among the events,
    in arrival order. *)
Fixpoint followers (p : string) (evs : list event) : list chan :=
  match evs with
  | [] => []
  | Message (fetchingKeepMessage q ch) :: evs' =>
      if String.eqb q p then ch :: followers p evs' else followers p evs'
  | _ :: evs' => followers p evs'
  end.

(** None of the events is a [fetched] message for [p]. *)
Definition no_report_for (p : string) (evs : list event) : Prop :=
  forall ev, ev ∈ evs -> ~ is_fetched_for p ev.




(** The durations of the timers created by a list of effects. *)
Fixpoint timers (o : list effect) : list Duration :=
  match o with
  | [] => []
  | NewTimer d :: o' => d :: timers o'
  | _ :: o' => timers o'
  end.

(** Every entry of the table is fetching. *)
Definition all_fetching (k : Keep) : Prop :=
  forall p e, entries k !! p = Some e -> fetching (info e) = true.

(** Two entries that differ at most in their [fetching] flag. *)
Definition same_but_flag (e e' : entry) : Prop :=
  path (info e') = path (info e) /\
  count (info e') = count (info e) /\
  lastFetched (info e') = lastFetched (info e) /\
  waiters e' = waiters e.

(** What the [fetched] case does for one queued waiter, and what a message
    does in all, as the list of its effects. *)
Definition served (data : option bytes) (waiter : chan) : list effect :=
  match data with
  | Some d => [Printf ("satisfying waiter" +:+ nl); Send waiter d]
  | None => [Close waiter]
  end.

Definition message_effects (msg : keepMessage) (k : Keep) : list effect :=
  match msg with
  | requestKeepMessage _ => []
  | fetchingKeepMessage p waiter =>
      if flag k p then [Printf ("adding waiter" +:+ nl)] else [Close waiter]
  | fetchedKeepMessage p data =>
      match data with
      | None => [Printf ("no data fetched" +:+ nl)]
      | Some _ => []
      end ++ flat_map (served data) (queue k p)
  end.

(** [d] is the time left, at the last reading of the clock, to the
    earliest deadline among the idle entries, and that deadline is less than
    [expireDuration] away. *)
Definition nearest_deadline (w : world) (d : Duration) : Prop :=
  0 < d < expireDuration /\
  exists p e,
    entries (keep w) !! p = Some e /\
    fetching (info e) = false /\
    d = lastFetched (info e) + expireDuration - reading (clk w) /\
    forall q e2, entries (keep w) !! q = Some e2 ->
      fetching (info e2) = false ->
      lastFetched (info e) <= lastFetched (info e2).

(** One entry, long overdue but fetching, and a clock that stands still. *)
Definition stuck_world_busy : world :=
  one_entry "/a" (mkEntry (mkEntryInfo "/a" 0 0 true) [3%nat])
            (mkClock (5 * expireDuration) 0 (fun _ => 0%N)).

(** ** Observations on a fetch *)

Module FetchObservations.
Import Fetch.

(** The status codes written to sinks, in order. *)
Fixpoint statuses (o : list effect) : list (ResponseWriter * Z) :=
  match o with
  | [] => []
  | http_Error w _ code :: o' => (w, code) :: statuses o'
  | WriteHeader w code :: o' => (w, code) :: statuses o'
  | _ :: o' => statuses o'
  end.

(** The cache writes started and the reports sent. *)
Definition is_outcome (e : effect) : bool := is_Cache_Set e || is_fetched e.

(** The response [fetch] gets to see, if any. *)
Definition response (u : upstream) (p : string) : option Response :=
  match http_NewRequest u "GET" ("http://localhost:8085" +:+ p) with
  | inl req =>
      match http_Do u req with
      | inl resp => Some resp
      | inr _ => None
      end
  | inr _ => None
  end.

(** A [Content-Type] value that is [application/json] as it stands, or
    followed by [;] and anything. *)
Definition json_header (contentType : string) : Prop :=
  contentType = "application/json" \/
  exists params, contentType = "application/json;" +:+ params.

(** What a live sink is sent ahead of the body. *)
Definition headers (responseWriter : option ResponseWriter) : list effect :=
  match responseWriter with
  | Some w => [WriteHeader w StatusOK]
  | None => []
  end.

(** The error of request construction or of the transport, if any. *)
Definition transport_error (u : upstream) (p : string) : option error :=
  match http_NewRequest u "GET" ("http://localhost:8085" +:+ p) with
  | inl req =>
      match http_Do u req with
      | inl _ => None
      | inr err => Some err
      end
  | inr err => Some err
  end.

End FetchObservations.

(** Traffic that contains no report for ["/a"]. *)
Definition sample_traffic : list event :=
  [Message (requestKeepMessage "/b");
   Message (fetchingKeepMessage "/a" 9%nat);
   Message (fetchingKeepMessage "/b" 4%nat)].

(** * Verification *)

(** ** Running the monad *)

Ltac unfold_M :=
  unfold mbind, M_bind, bind, mret, M_ret, ret, panic, blocked, out_of_fuel,
    emit, time_Now, get_entries, get_timer, set_entry, set_timer in *.

Lemma bind_Ok {A B} (m : M A) (f : A -> M B) w a w1 o1 :
  m w = Ok (a, w1, o1) ->
  (m ≫= f) w =
    match f a w1 with
    | Ok (b, w2, o2) => Ok (b, w2, o1 ++ o2)
    | Panic s => Panic s
    | Blocked => Blocked
    | OutOfFuel => OutOfFuel
    end.
Proof. intros H. unfold mbind, M_bind, bind. now rewrite H. Qed.

Lemma bind_inv {A B} (m : M A) (f : A -> M B) w b w2 o :
  (m ≫= f) w = Ok (b, w2, o) ->
  exists a w1 o1 o2,
    m w = Ok (a, w1, o1) /\ f a w1 = Ok (b, w2, o2) /\ o = o1 ++ o2.
Proof.
  unfold mbind, M_bind, bind. intros H.
  destruct (m w) as [[[a w1] o1]| | |]; try discriminate.
  destruct (f a w1) as [[[b' w2'] o2]| | |] eqn:Hf; try discriminate.
  inversion H; subst. now exists a, w1, o1, o2.
Qed.

Lemma closes_app o1 o2 : closes (o1 ++ o2) = closes o1 ++ closes o2.
Proof.
  induction o1 as [|[] o1 IH]; simpl; try rewrite IH; reflexivity.
Qed.

Lemma sends_app o1 o2 : sends (o1 ++ o2) = sends o1 ++ sends o2.
Proof.
  induction o1 as [|[] o1 IH]; simpl; try rewrite IH; reflexivity.
Qed.

Lemma launches_app o1 o2 : launches (o1 ++ o2) = launches o1 ++ launches o2.
Proof.
  induction o1 as [|[] o1 IH]; simpl; try rewrite IH; reflexivity.
Qed.

(** ** Messages *)

(** The fan-out loop of the [fetched] case never fails, leaves the world as
    it is, and performs one operation per waiter, in queue order. *)
Lemma fan_out_runs (data : option bytes) (ws : list chan) (w : world) :
  exists o,
    range ws (fan_out data) w = Ok (tt, w, o) /\
    match data with
    | Some d => sends o = map (fun c => (c, d)) ws /\ closes o = []
    | None => closes o = ws /\ sends o = []
    end.
Proof.
  induction ws as [|c ws [o [Hrun Ho]]]; simpl.
  - exists []. split; [reflexivity|]. destruct data; auto.
  - destruct data as [d|].
    + exists (Printf ("satisfying waiter" +:+ nl) :: Send c d :: o).
      rewrite (bind_Ok _ _ w tt w [Printf ("satisfying waiter" +:+ nl); Send c d])
        by reflexivity.
      rewrite Hrun. simpl. destruct Ho as [-> ->]. auto.
    + exists (Close c :: o).
      rewrite (bind_Ok _ _ w tt w [Close c]) by reflexivity.
      rewrite Hrun. simpl. destruct Ho as [-> ->]. auto.
Qed.

(** C1. A [fetching(p, ch)] message always leaves [p] fetching and sends
    nothing.  If [p] was not fetching (or had no entry yet), the only channel
    operation is closing [ch] and the queue is unchanged; if [p] was already
    fetching, [ch] is appended to the queue and nothing is closed. *)
Theorem fetching_message_elects_or_queues (w : world) (p : string) (ch : chan) :
  exists w' o,
    handle_message (fetchingKeepMessage p ch) w = Ok (tt, w', o) /\
    flag (keep w') p = true /\
    sends o = [] /\
    if flag (keep w) p
    then queue (keep w') p = queue (keep w) p ++ [ch] /\ closes o = []
    else closes o = [ch] /\ queue (keep w') p = queue (keep w) p.
Proof.
  destruct w as [[es t] c].
  unfold handle_message, lookup_or_create, flag, queue. unfold_M. cbn.
  destruct (es !! p) as [e|] eqn:E; cbn.
  - destruct (fetching (info e)) eqn:F; cbn;
      eexists _, _; (split; [reflexivity|]); cbn;
      rewrite lookup_insert_eq; cbn; auto.
  - eexists _, _. split; [reflexivity|]. cbn.
    rewrite lookup_insert_eq. cbn. auto.
Qed.

(** C2. A [fetched(p, data)] message for a fetching entry stamps the entry
    with the reading [time.Now] returns at that moment, clears the flag and
    empties the queue; with data, every queued waiter is sent those bytes, in
    queue order, and nothing is closed; without, every queued waiter is closed
    and nothing is sent. *)
Theorem fetched_message_fans_out (w : world) (p : string) (data : option bytes) :
  flag (keep w) p = true ->
  exists w' o e',
    handle_message (fetchedKeepMessage p data) w = Ok (tt, w', o) /\
    entries (keep w') !! p = Some e' /\
    lastFetched (info e') = next_reading (clk w) /\
    fetching (info e') = false /\
    waiters e' = [] /\
    match data with
    | Some d => sends o = map (fun c => (c, d)) (queue (keep w) p) /\ closes o = []
    | None => closes o = queue (keep w) p /\ sends o = []
    end.
Proof.
  destruct w as [[es t] c].
  unfold flag, queue, handle_message, lookup_or_create. cbn.
  destruct (es !! p) as [e|] eqn:E; [|discriminate]. intros F.
  unfold mbind, M_bind, bind, get_entries. cbn. rewrite E. cbn. rewrite F. cbn.
  set (w1 := mkWorld _ _).
  destruct (fan_out_runs data (waiters e) w1) as [o [Hrun Ho]].
  destruct data as [d|]; unfold ret, emit; cbn; rewrite Hrun; cbn;
    eexists _, _, _; (split; [reflexivity|]); cbn;
    rewrite lookup_insert_eq; (split; [reflexivity|]); cbn;
    rewrite ?app_nil_r; repeat split; try reflexivity; apply Ho.
Qed.

Lemma fetched_message_fans_out_witness :
  exists w' o e',
    handle_message (fetchedKeepMessage "/a" (Some [Byte.x01])) fetching_with_waiters
      = Ok (tt, w', o) /\
    entries (keep w') !! "/a" = Some e' /\
    lastFetched (info e') = 101 /\
    fetching (info e') = false /\
    waiters e' = [] /\
    sends o = [(7%nat, [Byte.x01]); (8%nat, [Byte.x01])] /\ closes o = [].
Proof.
  exact (fetched_message_fans_out fetching_with_waiters "/a" (Some [Byte.x01])
           eq_refl).
Defined.

(** C3. A [fetched] message for a path that is not fetching, whether its
    entry exists or would only now be created, panics before anything is
    stored, and the loop processes no later event. *)
Theorem fetched_while_idle_is_fatal (w : world) (p : string)
    (data : option bytes) (fuel : nat) (later : list event) :
  flag (keep w) p = false ->
  handle_message (fetchedKeepMessage p data) w
    = Panic "We got a fetched, but we're not fetching" /\
  run_loop fuel (Message (fetchedKeepMessage p data) :: later) w
    = Panic "We got a fetched, but we're not fetching".
Proof.
  intros F.
  assert (H : handle_message (fetchedKeepMessage p data) w
              = Panic "We got a fetched, but we're not fetching").
  { destruct w as [[es t] c]. revert F.
    unfold flag, handle_message, lookup_or_create. unfold_M. cbn.
    destruct (es !! p) as [e|]; cbn; [intros ->|]; reflexivity. }
  split; [exact H|].
  simpl. unfold run_turn, mbind, M_bind, bind. now rewrite H.
Qed.

Lemma fetched_while_idle_is_fatal_witness :
  handle_message (fetchedKeepMessage "/never-seen" None)
                 (mkWorld NewKeep (constant_clock 0 1))
    = Panic "We got a fetched, but we're not fetching" /\
  run_loop 3 [Message (fetchedKeepMessage "/never-seen" None);
              Message (requestKeepMessage "/a")]
           (mkWorld NewKeep (constant_clock 0 1))
    = Panic "We got a fetched, but we're not fetching".
Proof.
  exact (fetched_while_idle_is_fatal (mkWorld NewKeep (constant_clock 0 1))
           "/never-seen" None 3 [Message (requestKeepMessage "/a")] eq_refl).
Defined.

Lemma later_clock_refl c : later_clock c c.
Proof. split; [lia | reflexivity]. Qed.

Lemma later_clock_trans c1 c2 c3 :
  later_clock c1 c2 -> later_clock c2 c3 -> later_clock c1 c3.
Proof. intros [H1 E1] [H2 E2]. split; [lia | congruence]. Qed.

Lemma later_clock_Now c : later_clock c (clock_Now c).2.
Proof. split; simpl; [lia | reflexivity]. Qed.

Lemma next_reading_ge c : reading c <= next_reading c.
Proof. unfold next_reading. simpl. lia. Qed.

(** A message that does not panic rewrites exactly the entry of its path, by
    [switched]; it leaves the timer alone and only reads the clock. *)
Lemma handle_message_inv (msg : keepMessage) (w w' : world) (o : list effect) :
  handle_message msg w = Ok (tt, w', o) ->
  entries (keep w') =
    <[Path msg := switched msg (reading (clk w')) (found w (Path msg))]>
      (entries (keep w)) /\
  timer (keep w') = timer (keep w) /\
  later_clock (clk w) (clk w') /\
  (entries (keep w) !! Path msg = None -> next_reading (clk w) <= reading (clk w')) /\
  match msg with
  | fetchedKeepMessage p _ => flag (keep w) p = true
  | _ => True
  end.
Proof.
  destruct w as [[es t] c].
  unfold handle_message, lookup_or_create, found, flag, next_reading, later_clock.
  unfold mbind, M_bind, bind, get_entries. cbn.
  destruct msg as [p|p ch|p data]; cbn;
    destruct (es !! p) as [e|] eqn:E; cbn; try discriminate.
  1-2, 4: intros H; inversion H; subst; cbn;
    repeat split; first [lia | intros; discriminate].
  - destruct (fetching (info e)); cbn; intros H; inversion H; subst; cbn;
      repeat split; first [lia | intros; discriminate].
  - destruct (fetching (info e)) eqn:F; cbn; [|discriminate].
    set (w1 := mkWorld _ _).
    destruct (fan_out_runs data (waiters e) w1) as [o' [Hrun _]].
    destruct data; unfold ret, emit; cbn; rewrite Hrun; cbn;
      intros H; inversion H; subst; cbn;
      repeat split; first [lia | intros; discriminate].
Qed.

(** ** The refresh sweep *)

Lemma fetchExpired_body_runs (now : Time) (x : string * entry) (k : Keep)
    (c : clock) :
  fetchExpired_body now x (mkWorld k c) =
    Ok (tt, mkWorld (mkKeep (sweep_step now (entries k) x) (timer k)) c,
        sweep_effects now x).
Proof.
  destruct x as [key e], k as [es t].
  unfold fetchExpired_body, sweep_step, sweep_effects, expired. cbn.
  destruct (fetching (info e)); cbn; [reflexivity|].
  destruct (Before _ now); reflexivity.
Qed.

Lemma fetchExpired_range_runs (now : Time) (l : list (string * entry)) :
  forall (k : Keep) (c : clock),
    range l (fetchExpired_body now) (mkWorld k c) =
      Ok (tt, mkWorld (mkKeep (fold_left (sweep_step now) l (entries k)) (timer k)) c,
          flat_map (sweep_effects now) l).
Proof.
  induction l as [|x l IH]; intros [es t] c; simpl; [reflexivity|].
  erewrite bind_Ok by apply fetchExpired_body_runs.
  rewrite IH. reflexivity.
Qed.

(** Visiting pairs whose keys differ from [q] leaves [q]'s entry alone. *)
Lemma sweep_fold_other (now : Time) (l : list (string * entry)) (q : string) :
  forall m, q ∉ l.*1 -> fold_left (sweep_step now) l m !! q = m !! q.
Proof.
  induction l as [|[key e] l IH]; intros m Hq; simpl; [reflexivity|].
  rewrite fmap_cons, not_elem_of_cons in Hq. destruct Hq as [Hne Hq].
  rewrite IH by exact Hq. unfold sweep_step. cbn in *.
  destruct (expired now e); [|reflexivity].
  now rewrite lookup_insert_ne by congruence.
Qed.

(** Visiting each key once, in any order, marks exactly the expired
    entries. *)
Lemma sweep_fold_visited (now : Time) (l : list (string * entry)) (q : string)
    (e : entry) :
  forall m, NoDup l.*1 -> (q, e) ∈ l -> m !! q = Some e ->
    fold_left (sweep_step now) l m !! q = Some (sweep_entry now e).
Proof.
  induction l as [|[key e1] l IH]; intros m Hnd Hin Hm; simpl.
  - inversion Hin.
  - rewrite fmap_cons in Hnd. apply NoDup_cons in Hnd as [Hfresh Hnd].
    apply elem_of_cons in Hin as [Heq | Hin].
    + inversion Heq; subst. rewrite sweep_fold_other by exact Hfresh.
      unfold sweep_step, sweep_entry. cbn.
      destruct (expired now e1); [apply lookup_insert_eq | exact Hm].
    + assert (key <> q).
      { intros ->. apply Hfresh. apply list_elem_of_fmap. now exists (q, e). }
      apply IH; [exact Hnd | exact Hin |].
      unfold sweep_step. cbn. destruct (expired now e1); [|exact Hm].
      now rewrite lookup_insert_ne.
Qed.

Lemma sweep_fold_table (now : Time) (m : gmap string entry)
    (l : list (string * entry)) :
  l ≡ₚ map_to_list m ->
  fold_left (sweep_step now) l m = sweep_entry now <$> m.
Proof.
  intros Hl. apply map_eq; intros q. rewrite lookup_fmap.
  assert (Hnd : NoDup l.*1).
  { rewrite Hl. apply NoDup_fst_map_to_list. }
  destruct (m !! q) as [e|] eqn:E; cbn.
  - apply sweep_fold_visited; [exact Hnd | | exact E].
    rewrite Hl. now apply elem_of_map_to_list.
  - rewrite sweep_fold_other; [exact E|].
    intros Hin. apply list_elem_of_fmap in Hin as [[q' e'] [-> Hin]].
    rewrite Hl in Hin. apply elem_of_map_to_list in Hin. cbn in *. congruence.
Qed.

(** [fetchExpired] never fails; it reads the clock once and maps
    [sweep_entry] over the table. *)
Lemma fetchExpired_runs (w : world) :
  fetchExpired w =
    Ok (tt,
        mkWorld (mkKeep (sweep_entry (next_reading (clk w)) <$> entries (keep w))
                        (timer (keep w)))
                (clock_Now (clk w)).2,
        Printf ("fetching expired" +:+ nl) ::
        flat_map (sweep_effects (next_reading (clk w)))
                 (map_to_list (entries (keep w)))).
Proof.
  destruct w as [k c]. unfold fetchExpired, next_reading.
  unfold mbind, M_bind, bind, emit, time_Now, get_entries. cbn.
  rewrite fetchExpired_range_runs. cbn.
  now rewrite sweep_fold_table by reflexivity.
Qed.

(** ** The deadline *)

Lemma earliest_of_cons (now : Time) (x : string * entry)
    (l : list (string * entry)) :
  earliest_of now (x :: l) =
    if idle x then Z.min (lastFetched (info x.2)) (earliest_of now l)
    else earliest_of now l.
Proof. unfold earliest_of. simpl. now destruct (idle x). Qed.

Lemma shortestTimeout_fold (now : Time) (l : list (string * entry)) :
  forall (a : Time) (b : bool),
    a <= now -> b = (a <? now) ->
    fold_left shortestTimeout_body l (a, b) =
      (Z.min a (earliest_of now l), Z.min a (earliest_of now l) <? now).
Proof.
  induction l as [|[key e] l IH]; intros a b Ha Hb.
  - unfold earliest_of. simpl. rewrite Z.min_l by exact Ha. now rewrite Hb.
  - rewrite earliest_of_cons. simpl. unfold idle. cbn.
    destruct (fetching (info e)); cbn.
    + now apply IH.
    + unfold Before. destruct (Z.ltb_spec (lastFetched (info e)) a) as [Hlt|Hge].
      * rewrite IH; [| lia | symmetry; apply Z.ltb_lt; lia].
        now replace (Z.min a (Z.min (lastFetched (info e)) (earliest_of now l)))
          with (Z.min (lastFetched (info e)) (earliest_of now l)) by lia.
      * rewrite IH by assumption.
        now replace (Z.min a (Z.min (lastFetched (info e)) (earliest_of now l)))
          with (Z.min a (earliest_of now l)) by lia.
Qed.

Lemma earliest_of_le_now (now : Time) (l : list (string * entry)) :
  earliest_of now l <= now.
Proof.
  unfold earliest_of. induction l as [|x l IH]; simpl; [lia|].
  destruct (idle x); simpl; lia.
Qed.

Lemma earliest_of_le_stamp (now : Time) (l : list (string * entry))
    (x : string * entry) :
  x ∈ l -> idle x = true -> earliest_of now l <= lastFetched (info x.2).
Proof.
  unfold earliest_of. induction l as [|y l IH]; intros Hin Hx.
  - inversion Hin.
  - apply elem_of_cons in Hin as [<- | Hin]; simpl.
    + rewrite Hx. simpl. lia.
    + specialize (IH Hin Hx). destruct (idle y); simpl; lia.
Qed.

Lemma earliest_of_attained (now : Time) (l : list (string * entry)) :
  earliest_of now l < now ->
  exists x, x ∈ l /\ idle x = true /\ lastFetched (info x.2) = earliest_of now l.
Proof.
  unfold earliest_of. induction l as [|y l IH]; simpl; intros H; [lia|].
  destruct (idle y) eqn:Hy; simpl in *.
  - destruct (Z.le_gt_cases (lastFetched (info y.2))
                (fold_right Z.min now
                   (map (fun x => lastFetched (info x.2)) (List.filter idle l))))
      as [Hle | Hgt].
    + exists y. rewrite Z.min_l by exact Hle.
      split; [apply elem_of_cons; now left | auto].
    + rewrite Z.min_r in * by lia.
      destruct (IH H) as (x & Hin & Hx & Hs).
      exists x. split; [apply elem_of_cons; now right | auto].
  - destruct (IH H) as (x & Hin & Hx & Hs).
    exists x. split; [apply elem_of_cons; now right | auto].
Qed.

(** The order in which [range] visits the table does not matter. *)
Lemma earliest_of_Permutation (now : Time) (l l' : list (string * entry)) :
  l ≡ₚ l' -> earliest_of now l = earliest_of now l'.
Proof.
  unfold earliest_of. induction 1 as [|x l l' _ IH|x y l|l1 l2 l3 _ IH1 _ IH2]; simpl.
  - reflexivity.
  - destruct (idle x); simpl; now rewrite IH.
  - destruct (idle x), (idle y); simpl; lia.
  - congruence.
Qed.

Lemma shortestTimeout_range_spec (now : Time) (l : list (string * entry)) :
  shortestTimeout_range now l = (earliest_of now l, earliest_of now l <? now).
Proof.
  unfold shortestTimeout_range.
  rewrite (shortestTimeout_fold now l now false); [| lia |].
  - now rewrite Z.min_r by apply earliest_of_le_now.
  - symmetry. apply Z.ltb_irrefl.
Qed.

Lemma shortestTimeout_range_Permutation (now : Time) (l l' : list (string * entry)) :
  l ≡ₚ l' -> shortestTimeout_range now l = shortestTimeout_range now l'.
Proof.
  intros H. rewrite !shortestTimeout_range_spec.
  now rewrite (earliest_of_Permutation now l l' H).
Qed.

(** [shortestTimeout] never fails and reads the clock once. *)
Lemma shortestTimeout_runs (w : world) :
  shortestTimeout w =
    let now := next_reading (clk w) in
    let earliest := earliest_of now (map_to_list (entries (keep w))) in
    Ok ((if earliest + expireDuration <? now then 0
         else earliest + expireDuration - now,
         earliest <? now),
        mkWorld (keep w) (clock_Now (clk w)).2, []).
Proof.
  destruct w as [k c]. unfold shortestTimeout, next_reading.
  unfold mbind, M_bind, bind, time_Now, get_entries. cbn.
  rewrite shortestTimeout_range_spec. cbn.
  unfold Before, Add, Sub.
  destruct (_ <? reading c + _); reflexivity.
Qed.

(** ** One turn of the scheduler's loop *)

Lemma serviceTimer_turn_runs (w : world) :
  serviceTimer_turn w =
    let w1 := after_sweep w in
    let now := next_reading (clk w1) in
    let c2 := (clock_Now (clk w1)).2 in
    let earliest := earliest_of now (map_to_list (entries (keep w1))) in
    let duration := if earliest + expireDuration <? now then 0
                    else earliest + expireDuration - now in
    let swept := Printf ("fetching expired" +:+ nl) ::
                 flat_map (sweep_effects (next_reading (clk w)))
                          (map_to_list (entries (keep w))) in
    if negb (earliest <? now) then Ok (Returned, mkWorld (keep w1) c2, swept)
    else if 0 <? duration then
      Ok (Returned, mkWorld (mkKeep (entries (keep w1)) (Some duration)) c2,
          swept ++ [NewTimer duration])
    else Ok (Again, mkWorld (keep w1) c2, swept).
Proof.
  unfold serviceTimer_turn.
  erewrite bind_Ok by apply fetchExpired_runs.
  fold (after_sweep w).
  erewrite bind_Ok by apply shortestTimeout_runs.
  cbn zeta.
  set (now := next_reading (clk (after_sweep w))).
  set (ea := earliest_of now _).
  set (d := if ea + expireDuration <? now then 0 else _).
  destruct (ea <? now); cbn; [|now rewrite app_nil_r].
  destruct (0 <? d); cbn; [reflexivity | now rewrite app_nil_r].
Qed.

Lemma marked_refl e : marked e e.
Proof. now left. Qed.

Lemma marked_sweep now e : marked e (sweep_entry now e).
Proof.
  unfold sweep_entry, expired.
  destruct (fetching (info e)) eqn:F; cbn; [now left|].
  destruct (Before _ now); [right; auto | now left].
Qed.

Lemma marked_trans e1 e2 e3 : marked e1 e2 -> marked e2 e3 -> marked e1 e3.
Proof.
  intros [-> | [F1 ->]] [-> | [F2 ->]]; try (now left); right; now auto.
Qed.

Lemma only_marks_refl m : only_marks m m.
Proof.
  intros p. destruct (m !! p); constructor. apply marked_refl.
Qed.

Lemma only_marks_trans m1 m2 m3 :
  only_marks m1 m2 -> only_marks m2 m3 -> only_marks m1 m3.
Proof.
  intros H1 H2 p. specialize (H1 p). specialize (H2 p).
  destruct H1; inversion H2; subst; constructor.
  eapply marked_trans; eassumption.
Qed.

Lemma only_marks_sweep now m : only_marks m (sweep_entry now <$> m).
Proof.
  intros p. rewrite lookup_fmap.
  destruct (m !! p); constructor. apply marked_sweep.
Qed.

(** What a turn leaves behind, whatever its outcome. *)
Lemma serviceTimer_turn_inv (w : world) :
  exists t w' o,
    serviceTimer_turn w = Ok (t, w', o) /\
    entries (keep w') = entries (keep (after_sweep w)) /\
    clk w' = (clock_Now (clk (after_sweep w))).2 /\
    launches o = launches (flat_map (sweep_effects (next_reading (clk w)))
                                    (map_to_list (entries (keep w)))) /\
    match t with
    | Again => due w' /\ timer (keep w') = timer (keep w)
    | Returned =>
        (timer (keep w') = timer (keep w) /\
         forall p e, entries (keep w') !! p = Some e ->
           fetching (info e) = false -> reading (clk w') <= lastFetched (info e)) \/
        (exists p e, entries (keep w') !! p = Some e /\
           fetching (info e) = false /\
           (forall q e2, entries (keep w') !! q = Some e2 ->
              fetching (info e2) = false ->
              lastFetched (info e) <= lastFetched (info e2)) /\
           reading (clk w') < lastFetched (info e) + expireDuration /\
           timer (keep w') =
             Some (lastFetched (info e) + expireDuration - reading (clk w')))
    end.
Proof.
  rewrite serviceTimer_turn_runs. cbn zeta.
  set (w1 := after_sweep w).
  set (now := next_reading (clk w1)).
  set (ea := earliest_of now (map_to_list (entries (keep w1)))).
  assert (Hnow : reading (clock_Now (clk w1)).2 = now) by reflexivity.
  assert (Hlow : forall p e, entries (keep w1) !! p = Some e ->
            fetching (info e) = false -> ea <= lastFetched (info e)).
  { intros p e He F.
    apply (earliest_of_le_stamp now _ (p, e)).
    - now apply elem_of_map_to_list.
    - unfold idle. cbn. now rewrite F. }
  assert (Hatt : ea < now -> exists p e, entries (keep w1) !! p = Some e /\
            fetching (info e) = false /\ lastFetched (info e) = ea).
  { intros Hlt. destruct (earliest_of_attained now _ Hlt) as ([p e] & Hin & Hi & Hs).
    exists p, e. apply elem_of_map_to_list in Hin.
    unfold idle in Hi. cbn in *. apply negb_true_iff in Hi. auto. }
  set (d := if ea + expireDuration <? now then 0 else ea + expireDuration - now).
  assert (Hd : d <= 0 -> ea + expireDuration <= now).
  { unfold d. destruct (Z.ltb_spec (ea + expireDuration) now); lia. }
  assert (Hd' : 0 < d -> d = ea + expireDuration - now).
  { unfold d. destruct (Z.ltb_spec (ea + expireDuration) now); lia. }
  destruct (Z.ltb_spec ea now) as [Hlt|Hge]; cbn [negb].
  - destruct (Hatt Hlt) as (p & e & He & F & Hs).
    destruct (Z.ltb_spec 0 d) as [Hpos|Hnpos].
    + eexists _, _, _. split; [reflexivity|]. cbn [keep entries clk timer].
      repeat split;
        [simpl; rewrite launches_app; simpl; now rewrite app_nil_r|].
      right. exists p, e. rewrite Hs, Hnow, (Hd' Hpos).
      repeat split; auto; try lia.
    + eexists _, _, _. split; [reflexivity|]. cbn [keep entries clk timer].
      repeat split; try reflexivity.
      exists p, e. cbn [keep entries clk timer]. rewrite Hs, Hnow.
      repeat split; auto.
  - eexists _, _, _. split; [reflexivity|]. cbn [keep entries clk timer].
    repeat split; try reflexivity.
    left. split; [reflexivity|]. intros p e He F.
    specialize (Hlow p e He F). rewrite Hnow. lia.
Qed.

Lemma timers_app (o1 o2 : list effect) : timers (o1 ++ o2) = timers o1 ++ timers o2.
Proof.
  induction o1 as [|[] o1 IH]; simpl; try rewrite IH; reflexivity.
Qed.

Lemma sweep_effects_no_timer (now : Time) (l : list (string * entry)) :
  timers (flat_map (sweep_effects now) l) = [].
Proof.
  induction l as [|x l IH]; simpl; [reflexivity|].
  rewrite timers_app, IH. unfold sweep_effects. now destruct (expired now x.2).
Qed.

(** The three ways a turn can end: with a timer armed for the nearest
    deadline, with nothing expiring, or asking for another turn with an
    entry left due. *)
Lemma serviceTimer_turn_cases (w : world) :
  exists t w1 o1,
    serviceTimer_turn w = Ok (t, w1, o1) /\
    entries (keep w1) = entries (keep (after_sweep w)) /\
    clk w1 = (clock_Now (clk (after_sweep w))).2 /\
    match t with
    | Returned =>
        (exists d, timer (keep w1) = Some d /\ timers o1 = [d] /\
                   nearest_deadline w1 d) \/
        (timer (keep w1) = timer (keep w) /\ timers o1 = [] /\
         nothing_expiring w1)
    | Again =>
        timer (keep w1) = timer (keep w) /\ timers o1 = [] /\ due w1
    end.
Proof.
  rewrite serviceTimer_turn_runs. cbn zeta.
  set (w0 := after_sweep w).
  set (now := next_reading (clk w0)).
  set (ea := earliest_of now (map_to_list (entries (keep w0)))).
  set (d := if ea + expireDuration <? now then 0 else ea + expireDuration - now).
  assert (Hnow : reading (clock_Now (clk w0)).2 = now) by reflexivity.
  pose proof (sweep_effects_no_timer (next_reading (clk w))
                (map_to_list (entries (keep w)))) as Hno.
  assert (Hlow : forall p e, entries (keep w0) !! p = Some e ->
            fetching (info e) = false -> ea <= lastFetched (info e)).
  { intros p e He F.
    apply (earliest_of_le_stamp now _ (p, e)).
    - now apply elem_of_map_to_list.
    - unfold idle. cbn. now rewrite F. }
  destruct (Z.ltb_spec ea now) as [Hlt|Hge]; cbn [negb].
  - destruct (earliest_of_attained now _ Hlt) as ([p e] & Hin & Hi & Hs).
    apply elem_of_map_to_list in Hin.
    unfold idle in Hi. cbn in Hi. apply negb_true_iff in Hi.
    change (lastFetched (info e) = ea) in Hs.
    destruct (Z.ltb_spec 0 d) as [Hpos|Hnpos].
    + eexists _, _, _. split; [reflexivity|]. cbn [keep entries clk timer].
      split; [reflexivity|]. split; [reflexivity|].
      left. exists d. split; [reflexivity|]. split.
      { rewrite timers_app. cbn [timers]. rewrite Hno. reflexivity. }
      assert (Hd : d = ea + expireDuration - now).
      { unfold d in *. destruct (Z.ltb_spec (ea + expireDuration) now); lia. }
      split; [lia|].
      exists p, e. cbn [keep entries clk timer].
      split; [exact Hin|]. split; [exact Hi|].
      split; [rewrite Hs, Hnow; exact Hd|].
      intros q e2 He2 F2. rewrite Hs. now apply (Hlow q e2).
    + eexists _, _, _. split; [reflexivity|]. cbn [keep entries clk timer].
      split; [reflexivity|]. split; [reflexivity|].
      split; [reflexivity|]. split; [cbn [timers]; exact Hno|].
      exists p, e. cbn [keep entries clk timer]. rewrite Hs, Hnow.
      split; [exact Hin|]. split; [exact Hi|].
      revert Hnpos. unfold d.
      destruct (Z.ltb_spec (ea + expireDuration) now); lia.
  - eexists _, _, _. split; [reflexivity|]. cbn [keep entries clk timer].
    split; [reflexivity|]. split; [reflexivity|].
    right. split; [reflexivity|]. split; [cbn [timers]; exact Hno|].
    intros p e He F. cbn [keep entries clk timer] in *.
    specialize (Hlow p e He F). rewrite Hnow. lia.
Qed.

(** Under an advancing clock the sweep marks every entry that was due at
    the last reading. *)
Lemma due_is_swept (w : world) (p : string) (e : entry) :
  advancing (clk w) ->
  entries (keep w) !! p = Some e ->
  fetching (info e) = false ->
  lastFetched (info e) + expireDuration <= reading (clk w) ->
  entries (keep (after_sweep w)) !! p = Some (set_fetching true e).
Proof.
  intros Hadv He F Hdue. unfold after_sweep. cbn [keep entries].
  rewrite lookup_fmap, He.
  change (Some (sweep_entry (next_reading (clk w)) e) = Some (set_fetching true e)).
  assert (X : expired (next_reading (clk w)) e = true).
  { unfold expired, Before, Add, next_reading. cbn. rewrite F. cbn.
    apply Z.ltb_lt. specialize (Hadv (reads (clk w))). lia. }
  unfold sweep_entry. now rewrite X.
Qed.

(** ** Termination of the scheduler's loop *)

Lemma idle_sweep (now : Time) (p : string) (e : entry) :
  idle (p, sweep_entry now e) = idle (p, e) && negb (expired now e).
Proof.
  unfold idle, sweep_entry, expired. cbn.
  destruct (fetching (info e)) eqn:F; cbn; [now rewrite F|].
  destruct (Before _ now); cbn; [reflexivity | now rewrite F].
Qed.

(** A sweep never makes an entry idle, so the idle entries do not grow. *)
Lemma idle_count_sweep_le (now : Time) (l : list (string * entry)) :
  (length (List.filter idle (prod_map id (sweep_entry now) <$> l))
   <= length (List.filter idle l))%nat.
Proof.
  induction l as [|[p e] l IH]; [simpl; lia|].
  rewrite fmap_cons. cbn [prod_map id fst snd List.filter].
  rewrite idle_sweep.
  destruct (idle (p, e)), (expired now e); cbn [andb negb length]; lia.
Qed.

(** An expired entry leaves the idle ones. *)
Lemma idle_count_sweep_lt (now : Time) (l : list (string * entry))
    (x : string * entry) :
  x ∈ l -> expired now x.2 = true ->
  (length (List.filter idle (prod_map id (sweep_entry now) <$> l))
   < length (List.filter idle l))%nat.
Proof.
  induction l as [|[p e] l IH]; intros Hin X.
  - inversion Hin.
  - rewrite fmap_cons. cbn [prod_map id fst snd List.filter].
    rewrite idle_sweep.
    apply elem_of_cons in Hin as [-> | Hin].
    + pose proof (idle_count_sweep_le now l) as Hle.
      cbn in X. rewrite X.
      assert (idle (p, e) = true) as ->.
      { unfold expired in X. apply andb_true_iff in X as [F _]. exact F. }
      cbn [andb negb length]. lia.
    + specialize (IH Hin X).
      destruct (idle (p, e)), (expired now e); cbn [andb negb length]; lia.
Qed.

Lemma refreshable_sweep_le (w : world) :
  (refreshable (keep (after_sweep w)) <= refreshable (keep w))%nat.
Proof.
  unfold refreshable, after_sweep. cbn.
  rewrite map_to_list_fmap.
  apply idle_count_sweep_le.
Qed.

(** Under an advancing clock, an entry that was due at the last reading is
    expired at the next one, so the sweep marks it. *)
Lemma refreshable_sweep_lt (w : world) :
  advancing (clk w) -> due w ->
  (refreshable (keep (after_sweep w)) < refreshable (keep w))%nat.
Proof.
  intros Hadv (p & e & He & F & Hdue).
  unfold refreshable, after_sweep. cbn.
  rewrite map_to_list_fmap.
  apply (idle_count_sweep_lt _ _ (p, e)).
  - now apply elem_of_map_to_list.
  - unfold expired, Before, Add, next_reading. cbn. rewrite F. cbn.
    apply Z.ltb_lt. specialize (Hadv (reads (clk w))). lia.
Qed.

Lemma advancing_later (c c' : clock) :
  later_clock c c' -> advancing c -> advancing c'.
Proof. intros [_ E] H n. rewrite E. apply H. Qed.

Lemma serviceTimer_turn_clock (w : world) :
  later_clock (clk w) (clock_Now (clk (after_sweep w))).2.
Proof.
  eapply later_clock_trans; [apply later_clock_Now|].
  apply (later_clock_Now (clk (after_sweep w))).
Qed.

(** Once some entry is due, every further turn marks at least one entry:
    [n] turns are enough when at most [n] entries are idle. *)
Lemma serviceTimer_loop_runs_when_due (n : nat) :
  forall (w : world) (fuel : nat),
    advancing (clk w) -> due w ->
    (refreshable (keep w) <= n)%nat -> (n <= fuel)%nat ->
    exists w' o, serviceTimer_loop fuel w = Ok (tt, w', o).
Proof.
  induction n as [|n IH]; intros w fuel Hadv Hdue Hn Hfuel.
  - pose proof (refreshable_sweep_lt w Hadv Hdue). lia.
  - destruct fuel as [|fuel]; [lia|]. simpl.
    destruct (serviceTimer_turn_inv w) as (t & w1 & o1 & Hturn & He & Hc & _ & Ht).
    erewrite bind_Ok by exact Hturn.
    destruct t.
    + now eexists _, _.
    + destruct Ht as [Hdue1 _].
      assert (Hadv1 : advancing (clk w1)).
      { rewrite Hc. eapply advancing_later; [apply serviceTimer_turn_clock | exact Hadv]. }
      assert (Hn1 : (refreshable (keep w1) <= n)%nat).
      { pose proof (refreshable_sweep_lt w Hadv Hdue) as Hlt.
        unfold refreshable in *. rewrite He. lia. }
      destruct (IH w1 fuel Hadv1 Hdue1 Hn1) as (w' & o & Hrun); [lia|].
      rewrite Hrun. now eexists _, _.
Qed.

Lemma serviceTimer_loop_runs (w : world) (fuel : nat) :
  advancing (clk w) ->
  (refreshable (keep w) < fuel)%nat ->
  exists w' o, serviceTimer_loop fuel w = Ok (tt, w', o).
Proof.
  intros Hadv Hfuel. destruct fuel as [|fuel]; [lia|]. simpl.
  destruct (serviceTimer_turn_inv w) as (t & w1 & o1 & Hturn & He & Hc & _ & Ht).
  erewrite bind_Ok by exact Hturn.
  destruct t.
  - now eexists _, _.
  - destruct Ht as [Hdue1 _].
    assert (Hadv1 : advancing (clk w1)).
    { rewrite Hc. eapply advancing_later; [apply serviceTimer_turn_clock | exact Hadv]. }
    assert (Hn1 : (refreshable (keep w1) <= fuel)%nat).
    { pose proof (refreshable_sweep_le w) as Hle.
      unfold refreshable in *. rewrite He. lia. }
    destruct (serviceTimer_loop_runs_when_due fuel w1 fuel Hadv1 Hdue1 Hn1)
      as (w' & o & Hrun); [lia|].
    rewrite Hrun. now eexists _, _.
Qed.

Lemma serviceTimer_runs (w : world) (fuel : nat) :
  advancing (clk w) ->
  (refreshable (keep w) < fuel)%nat ->
  exists w' o, serviceTimer fuel w = Ok (tt, w', o).
Proof.
  intros Hadv Hfuel. unfold serviceTimer, mbind, M_bind, bind, get_timer.
  destruct (timer (keep w)).
  - now eexists _, _.
  - destruct (serviceTimer_loop_runs w fuel Hadv Hfuel) as (w' & o & ->).
    now eexists _, _.
Qed.

(** C7 (as amended). Under a clock whose every reading is later than the one
    before, a scheduler pass with more turns allowed than there are idle
    entries returns.  Every turn of its loop ends in one of three ways: it
    returns with a timer armed for a deadline in the future, the nearest
    among the idle entries; it returns with nothing expiring and the timer
    untouched; or it asks for another turn, having created no timer and left
    an idle entry whose deadline is due.  The turn after such a turn marks
    that entry fetching and so leaves strictly fewer idle entries.  A turn
    never adds an idle entry and leaves the clock advancing, so the same
    holds of every later turn. *)
Theorem scheduler_pass_terminates (w : world) (fuel : nat) :
  advancing (clk w) ->
  (refreshable (keep w) < fuel)%nat ->
  (exists w' o, serviceTimer fuel w = Ok (tt, w', o)) /\
  (exists t w1 o1,
     serviceTimer_turn w = Ok (t, w1, o1) /\
     advancing (clk w1) /\
     (refreshable (keep w1) <= refreshable (keep w))%nat /\
     match t with
     | Returned =>
         (exists d, timer (keep w1) = Some d /\ timers o1 = [d] /\
                    nearest_deadline w1 d) \/
         (timer (keep w1) = timer (keep w) /\ timers o1 = [] /\
          nothing_expiring w1)
     | Again =>
         timer (keep w1) = timer (keep w) /\ timers o1 = [] /\
         exists p e,
           entries (keep w1) !! p = Some e /\
           fetching (info e) = false /\
           lastFetched (info e) + expireDuration <= reading (clk w1) /\
           exists t2 w2 o2,
             serviceTimer_turn w1 = Ok (t2, w2, o2) /\
             entries (keep w2) !! p = Some (set_fetching true e) /\
             (refreshable (keep w2) < refreshable (keep w1))%nat
     end).
Proof.
  intros Hadv Hfuel. split; [now apply serviceTimer_runs|].
  destruct (serviceTimer_turn_cases w) as (t & w1 & o1 & Hturn & He & Hc & Ht).
  exists t, w1, o1. split; [exact Hturn|].
  assert (Hadv1 : advancing (clk w1)).
  { rewrite Hc. eapply advancing_later; [apply serviceTimer_turn_clock | exact Hadv]. }
  split; [exact Hadv1|]. split.
  { pose proof (refreshable_sweep_le w) as Hle.
    unfold refreshable in *. now rewrite He. }
  destruct t; [exact Ht|].
  destruct Ht as (Ht & Ho & Hdue).
  split; [exact Ht|]. split; [exact Ho|].
  pose proof (refreshable_sweep_lt w1 Hadv1 Hdue) as Hlt.
  destruct Hdue as (p & e & Hp & F & Hd).
  exists p, e. split; [exact Hp|]. split; [exact F|]. split; [exact Hd|].
  destruct (serviceTimer_turn_cases w1) as (t2 & w2 & o2 & Hturn2 & He2 & _).
  exists t2, w2, o2. split; [exact Hturn2|]. split.
  - rewrite He2. now apply due_is_swept.
  - unfold refreshable in *. now rewrite He2.
Qed.

Lemma constant_clock_advancing (t0 : Time) (d : N) :
  (0 < d)%N -> advancing (constant_clock t0 d).
Proof. intros H n. exact H. Qed.

Lemma scheduler_pass_terminates_witness :
  (exists w' o, serviceTimer 2 lagging_world = Ok (tt, w', o)) /\
  (exists t w1 o1,
     serviceTimer_turn lagging_world = Ok (t, w1, o1) /\
     advancing (clk w1) /\
     (refreshable (keep w1) <= refreshable (keep lagging_world))%nat /\
     match t with
     | Returned =>
         (exists d, timer (keep w1) = Some d /\ timers o1 = [d] /\
                    nearest_deadline w1 d) \/
         (timer (keep w1) = timer (keep lagging_world) /\ timers o1 = [] /\
          nothing_expiring w1)
     | Again =>
         timer (keep w1) = timer (keep lagging_world) /\ timers o1 = [] /\
         exists p e,
           entries (keep w1) !! p = Some e /\
           fetching (info e) = false /\
           lastFetched (info e) + expireDuration <= reading (clk w1) /\
           exists t2 w2 o2,
             serviceTimer_turn w1 = Ok (t2, w2, o2) /\
             entries (keep w2) !! p = Some (set_fetching true e) /\
             (refreshable (keep w2) < refreshable (keep w1))%nat
     end).
Proof.
  apply (scheduler_pass_terminates lagging_world 2).
  - apply constant_clock_advancing. reflexivity.
  - vm_compute. lia.
Defined.

(** C7 (as stated) fails: with one idle entry whose deadline falls between
    the sweep's reading of the clock and the deadline computation's, the turn
    arms no timer, does not return, and marks nothing. *)
Lemma scheduler_turn_without_progress : ~ turn_progresses lagging_world.
Proof.
  intros H.
  assert (Hturn : exists w' o,
             serviceTimer_turn lagging_world = Ok (Again, w', o) /\
             refreshable (keep w') = 1%nat).
  { eexists _, _. split; [vm_compute; reflexivity|]. vm_compute. reflexivity. }
  destruct Hturn as (w' & o & Hturn & Hcount).
  destruct (H Again w' o Hturn) as [[Ht _] | [[Ht _] | Hlt]];
    try discriminate.
  rewrite Hcount in Hlt. vm_compute in Hlt. lia.
Qed.

(** On a clock stuck at an idle entry's deadline the loop never returns:
    the deadline computation takes the entry as due, the sweep does not. *)
Lemma stuck_turn (n : nat) :
  exists o, serviceTimer_turn (stuck_world n) = Ok (Again, stuck_world (S (S n)), o).
Proof. eexists. vm_compute. reflexivity. Qed.

Lemma stuck_clock_spins (fuel : nat) :
  forall n, serviceTimer_loop fuel (stuck_world n) = OutOfFuel.
Proof.
  induction fuel as [|fuel IH]; intros n; [reflexivity|].
  simpl. destruct (stuck_turn n) as [o H].
  erewrite bind_Ok by exact H. now rewrite IH.
Qed.

(** ** The sweep and the deadline, entry by entry *)

(** The sweep marks exactly the idle entries whose deadline is strictly
    before its reading of the clock, and starts one fetch without a sink
    for each of them. *)
Lemma sweep_effects_launches (now : Time) (l : list (string * entry)) :
  launches (flat_map (sweep_effects now) l) =
    map (fun x => (path (info x.2), None))
        (List.filter (fun x => expired now x.2) l).
Proof.
  induction l as [|x l IH]; simpl; [reflexivity|].
  rewrite launches_app, IH. unfold sweep_effects.
  now destruct (expired now x.2).
Qed.

Lemma fetchExpired_spec (w : world) :
  exists w' o,
    fetchExpired w = Ok (tt, w', o) /\
    (forall p, entries (keep w') !! p =
               sweep_entry (next_reading (clk w)) <$> entries (keep w) !! p) /\
    launches o =
      map (fun x => (path (info x.2), None))
          (List.filter (fun x => expired (next_reading (clk w)) x.2)
                       (map_to_list (entries (keep w)))) /\
    closes o = [] /\ sends o = [].
Proof.
  eexists _, _. split; [apply fetchExpired_runs|]. cbn.
  split; [intros p; apply lookup_fmap|].
  split; [apply sweep_effects_launches|].
  induction (map_to_list (entries (keep w))) as [|x l [IH1 IH2]]; simpl; [auto|].
  rewrite closes_app, sends_app, IH1, IH2. unfold sweep_effects.
  now destruct (expired _ x.2).
Qed.

(** C4, at the boundary. An idle entry whose deadline equals the sweep's
    reading of the clock is left idle and no fetch is started for it. *)
Theorem sweep_skips_entry_due_now :
  lastFetched (info (fresh_entry "/a" 0)) + expireDuration
    = next_reading (clk (stuck_world 0)) /\
  exists w' o,
    fetchExpired (stuck_world 0) = Ok (tt, w', o) /\
    entries (keep w') !! "/a" = Some (fresh_entry "/a" 0) /\
    launches o = [].
Proof.
  split; [reflexivity|].
  eexists _, _. split; [vm_compute; reflexivity|].
  vm_compute. repeat split.
Qed.

(** C5, at the boundary. On a clock that stands still between the creation
    of an entry and the scheduler pass after it, the pass ends with the
    entry idle and no timer armed. *)
Theorem new_entry_on_coarse_clock_gets_no_timer :
  exists w' o e,
    run 5 [Message (requestKeepMessage "/a")] coarse_world = Ok (tt, w', o) /\
    entries (keep w') !! "/a" = Some e /\
    fetching (info e) = false /\
    lastFetched (info e) = reading (clk w') /\
    timer (keep w') = None.
Proof.
  eexists _, _, _. split; [vm_compute; reflexivity|].
  split; [vm_compute; reflexivity|].
  vm_compute. repeat split.
Qed.

(** ** Two runs *)

(** A pass over an overdue entry and a fresh one: the overdue entry is
    marked and fetched once, without a sink, and the timer is armed for the
    fresh entry's deadline. *)
Example scheduler_pass_on_two_entries :
  exists w' o,
    serviceTimer 3 two_entries = Ok (tt, w', o) /\
    flag (keep w') "/a" = true /\
    flag (keep w') "/b" = false /\
    launches o = [("/a", None)] /\
    timer (keep w') = Some (2 * expireDuration + expireDuration - reading (clk w')).
Proof.
  eexists _, _. split; [vm_compute; reflexivity|].
  vm_compute. repeat split.
Qed.

(** A leader, a follower, and the leader's report: the leader's channel is
    closed at once, the follower's receives the bytes. *)
Example leader_and_follower :
  exists w' o,
    run 5 [Message (fetchingKeepMessage "/a" 1%nat);
           Message (fetchingKeepMessage "/a" 2%nat);
           Message (fetchedKeepMessage "/a" (Some [Byte.x01; Byte.x02; Byte.x03]))]
        (mkWorld NewKeep (constant_clock 100 1)) = Ok (tt, w', o) /\
    closes o = [1%nat] /\
    sends o = [(2%nat, [Byte.x01; Byte.x02; Byte.x03])] /\
    flag (keep w') "/a" = false /\
    queue (keep w') "/a" = [].
Proof.
  eexists _, _. split; [vm_compute; reflexivity|].
  vm_compute. repeat split.
Qed.

(** ** Invariants of the actor loop *)

Lemma serviceTimer_loop_inv (fuel : nat) :
  forall w w' o,
    serviceTimer_loop fuel w = Ok (tt, w', o) ->
    only_marks (entries (keep w)) (entries (keep w')) /\
    later_clock (clk w) (clk w').
Proof.
  induction fuel as [|fuel IH]; intros w w' o H; [discriminate|].
  simpl in H.
  destruct (serviceTimer_turn_inv w) as (t & w1 & o1 & Hturn & He & Hc & _).
  erewrite bind_Ok in H by exact Hturn.
  assert (Hm : only_marks (entries (keep w)) (entries (keep w1))).
  { rewrite He. apply only_marks_sweep. }
  assert (Hl : later_clock (clk w) (clk w1)).
  { rewrite Hc. apply serviceTimer_turn_clock. }
  destruct t.
  - inversion H; subst. auto.
  - destruct (serviceTimer_loop fuel w1) as [[[[] w2] o2]| | |] eqn:Hrun;
      try discriminate.
    inversion H; subst.
    destruct (IH _ _ _ Hrun) as [Hm2 Hl2].
    split; [eapply only_marks_trans | eapply later_clock_trans]; eassumption.
Qed.

Lemma serviceTimer_inv (fuel : nat) (w w' : world) (o : list effect) :
  serviceTimer fuel w = Ok (tt, w', o) ->
  only_marks (entries (keep w)) (entries (keep w')) /\
  later_clock (clk w) (clk w').
Proof.
  unfold serviceTimer, mbind, M_bind, bind, get_timer.
  destruct (timer (keep w)).
  - intros H; inversion H; subst.
    split; [apply only_marks_refl | apply later_clock_refl].
  - destruct (serviceTimer_loop fuel w) as [[[[] w2] o2]| | |] eqn:Hrun;
      try discriminate.
    intros H; inversion H; subst. now apply serviceTimer_loop_inv in Hrun.
Qed.

(** The [select] of one turn of [run], before the scheduler pass. *)
Lemma run_turn_inv (fuel : nat) (ev : event) (w w' : world) (o : list effect) :
  run_turn fuel ev w = Ok (tt, w', o) ->
  exists w1 o1 o2,
    match ev with
    | Message msg => handle_message msg w = Ok (tt, w1, o1)
    | TimerFired =>
        w1 = mkWorld (mkKeep (entries (keep w)) None) (clk w) /\
        is_Some (timer (keep w))
    end /\
    serviceTimer fuel w1 = Ok (tt, w', o2).
Proof.
  unfold run_turn. intros H.
  apply bind_inv in H as ([] & w1 & o1 & o2 & Hsel & Hsvc & _).
  exists w1, o1, o2. split; [|exact Hsvc].
  destruct ev as [msg|]; [exact Hsel|].
  unfold mbind, M_bind, bind, get_timer, set_timer, blocked in Hsel.
  destruct (timer (keep w)) eqn:T; inversion Hsel; subst. eauto.
Qed.

Lemma idle_has_no_waiters_marks (k k' : Keep) :
  only_marks (entries k) (entries k') ->
  idle_has_no_waiters k -> idle_has_no_waiters k'.
Proof.
  intros Hm Hinv p e' He' F. specialize (Hm p). rewrite He' in Hm.
  destruct (entries k !! p) as [e|] eqn:He; inversion Hm as [? ? Hmark|]; subst.
  destruct Hmark as [-> | [_ ->]]; [now apply (Hinv p e) | discriminate].
Qed.

Lemma idle_has_no_waiters_message (msg : keepMessage) (w w' : world)
    (o : list effect) :
  idle_has_no_waiters (keep w) ->
  handle_message msg w = Ok (tt, w', o) ->
  idle_has_no_waiters (keep w').
Proof.
  intros Hinv H. apply handle_message_inv in H as (He & _ & _ & _ & _).
  intros q e' Hq F. rewrite He in Hq.
  destruct (decide (Path msg = q)) as [<-|Hne].
  - rewrite lookup_insert_eq in Hq. inversion Hq; subst e'. clear Hq.
    assert (H0 : fetching (info (found w (Path msg))) = false ->
                 waiters (found w (Path msg)) = []).
    { unfold found. destruct (entries (keep w) !! Path msg) eqn:E; [|reflexivity].
      now apply (Hinv (Path msg)). }
    destruct msg as [p|p ch|p data]; cbn in *.
    + exact (H0 F).
    + destruct (fetching (info (found w p))) eqn:F0; cbn in F; congruence.
    + reflexivity.
  - rewrite lookup_insert_ne in Hq by exact Hne. now apply (Hinv q).
Qed.

Lemma idle_has_no_waiters_turn (fuel : nat) (ev : event) (w w' : world)
    (o : list effect) :
  idle_has_no_waiters (keep w) ->
  run_turn fuel ev w = Ok (tt, w', o) ->
  idle_has_no_waiters (keep w').
Proof.
  intros Hinv H.
  apply run_turn_inv in H as (w1 & o1 & o2 & Hsel & Hsvc).
  apply serviceTimer_inv in Hsvc as [Hm _].
  apply (idle_has_no_waiters_marks (keep w1)); [exact Hm|].
  destruct ev as [msg|].
  - eapply idle_has_no_waiters_message; eassumption.
  - destruct Hsel as [-> _]. exact Hinv.
Qed.

Lemma idle_has_no_waiters_loop (fuel : nat) (evs : list event) :
  forall w w' o,
    idle_has_no_waiters (keep w) ->
    run_loop fuel evs w = Ok (tt, w', o) ->
    idle_has_no_waiters (keep w').
Proof.
  induction evs as [|ev evs IH]; intros w w' o Hinv H; simpl in H.
  - inversion H; subst. exact Hinv.
  - apply bind_inv in H as ([] & w1 & o1 & o2 & Hturn & Hrest & _).
    eapply IH; [|exact Hrest].
    eapply idle_has_no_waiters_turn; eassumption.
Qed.

(** C10. An entry that is not fetching has no waiters: this holds of the
    empty table and of an entry created on a miss, and every message kind
    preserves it (a [request] leaves the queue as it is), as does every run
    of the actor loop with its scheduler passes. *)
Theorem idle_entries_have_no_waiters :
  idle_has_no_waiters NewKeep /\
  (forall w p e w1 o,
     entries (keep w) !! p = None ->
     lookup_or_create p w = Ok (e, w1, o) ->
     fetching (info e) = false /\ waiters e = []) /\
  (forall msg w w' o,
     idle_has_no_waiters (keep w) ->
     handle_message msg w = Ok (tt, w', o) ->
     idle_has_no_waiters (keep w')) /\
  (forall p w w' o,
     handle_message (requestKeepMessage p) w = Ok (tt, w', o) ->
     queue (keep w') p = queue (keep w) p) /\
  (forall fuel evs w w' o,
     idle_has_no_waiters (keep w) ->
     run fuel evs w = Ok (tt, w', o) ->
     idle_has_no_waiters (keep w')).
Proof.
  split; [|split; [|split; [|split]]].
  - intros p e He. cbn in He. rewrite lookup_empty in He. discriminate.
  - intros w p e w1 o Hnone H.
    unfold lookup_or_create, mbind, M_bind, bind, get_entries in H.
    cbn in H. rewrite Hnone in H. cbn in H. now inversion H.
  - apply idle_has_no_waiters_message.
  - intros p w w' o H. apply handle_message_inv in H as (He & _).
    unfold queue, found in *. cbn in He. rewrite He, lookup_insert_eq.
    now destruct (entries (keep w) !! p).
  - intros fuel evs w w' o Hinv H. unfold run in H.
    apply bind_inv in H as ([] & w1 & o1 & o2 & Hsvc & Hloop & _).
    apply serviceTimer_inv in Hsvc as [Hm _].
    eapply idle_has_no_waiters_loop; [|exact Hloop].
    eapply idle_has_no_waiters_marks; eassumption.
Qed.

Lemma idle_entries_have_no_waiters_witness :
  exists w' o,
    run 5 [Message (fetchingKeepMessage "/a" 1%nat);
           Message (fetchingKeepMessage "/a" 2%nat);
           Message (fetchedKeepMessage "/a" None)]
        (mkWorld NewKeep (constant_clock 100 1)) = Ok (tt, w', o) /\
    idle_has_no_waiters (keep w').
Proof.
  eexists _, _. split; [vm_compute; reflexivity|].
  destruct idle_entries_have_no_waiters as (Hnew & _ & _ & _ & Hrun).
  eapply (Hrun 5%nat
            [Message (fetchingKeepMessage "/a" 1%nat);
             Message (fetchingKeepMessage "/a" 2%nat);
             Message (fetchedKeepMessage "/a" None)]
            (mkWorld NewKeep (constant_clock 100 1))); [exact Hnew|].
  vm_compute. reflexivity.
Defined.

(** ** [lastFetched] over time *)

Lemma marked_lastFetched (e e' : entry) :
  marked e e' -> lastFetched (info e') = lastFetched (info e).
Proof. now intros [-> | [_ ->]]. Qed.

Lemma stamped_in_the_past_marks (w w' : world) :
  only_marks (entries (keep w)) (entries (keep w')) ->
  later_clock (clk w) (clk w') ->
  stamped_in_the_past w -> stamped_in_the_past w'.
Proof.
  intros Hm [Hc _] Hinv p e' He'. specialize (Hm p). rewrite He' in Hm.
  destruct (entries (keep w) !! p) as [e|] eqn:He; inversion Hm as [? ? Hmark|]; subst.
  rewrite (marked_lastFetched _ _ Hmark). specialize (Hinv p e He). lia.
Qed.

(** What one message does to the stamps. *)
Lemma lastFetched_message (msg : keepMessage) (w w' : world) (o : list effect) :
  stamped_in_the_past w ->
  handle_message msg w = Ok (tt, w', o) ->
  stamped_in_the_past w' /\
  forall p e, entries (keep w) !! p = Some e ->
    exists e', entries (keep w') !! p = Some e' /\
      lastFetched (info e) <= lastFetched (info e') /\
      (lastFetched (info e') <> lastFetched (info e) ->
       is_fetched_for p (Message msg)).
Proof.
  intros Hinv H.
  apply handle_message_inv in H as (He & _ & [Hc _] & Hnew & Hflag).
  split.
  - intros q e' Hq. rewrite He in Hq.
    destruct (decide (Path msg = q)) as [<-|Hne].
    + rewrite lookup_insert_eq in Hq. inversion Hq; subst e'. clear Hq.
      assert (H0 : lastFetched (info (found w (Path msg))) <= reading (clk w')).
      { unfold found.
        destruct (entries (keep w) !! Path msg) as [e|] eqn:E; cbn.
        - specialize (Hinv _ _ E). lia.
        - now apply Hnew. }
      destruct msg as [p|p ch|p data]; cbn in *; try exact H0; try lia.
      destruct (fetching (info (found w p))); exact H0.
    + rewrite lookup_insert_ne in Hq by exact Hne.
      specialize (Hinv q e' Hq). lia.
  - intros q e Hq. rewrite He.
    destruct (decide (Path msg = q)) as [<-|Hne].
    + rewrite lookup_insert_eq. eexists. split; [reflexivity|].
      unfold found. rewrite Hq. specialize (Hinv _ _ Hq).
      destruct msg as [p|p ch|p data]; cbn in *.
      * split; [lia | congruence].
      * destruct (fetching (info e)); cbn; split; (lia || congruence).
      * split; [lia|]. intros _. now exists data.
    + rewrite lookup_insert_ne by exact Hne.
      exists e. split; [exact Hq|]. split; [lia | congruence].
Qed.

Lemma lastFetched_turn (fuel : nat) (ev : event) (w w' : world)
    (o : list effect) :
  stamped_in_the_past w ->
  run_turn fuel ev w = Ok (tt, w', o) ->
  stamped_in_the_past w' /\
  forall p e, entries (keep w) !! p = Some e ->
    exists e', entries (keep w') !! p = Some e' /\
      lastFetched (info e) <= lastFetched (info e') /\
      (lastFetched (info e') <> lastFetched (info e) -> is_fetched_for p ev).
Proof.
  intros Hinv H.
  apply run_turn_inv in H as (w1 & o1 & o2 & Hsel & Hsvc).
  apply serviceTimer_inv in Hsvc as [Hm Hc].
  assert (H1 : stamped_in_the_past w1 /\
    forall p e, entries (keep w) !! p = Some e ->
      exists e', entries (keep w1) !! p = Some e' /\
        lastFetched (info e) <= lastFetched (info e') /\
        (lastFetched (info e') <> lastFetched (info e) -> is_fetched_for p ev)).
  { destruct ev as [msg|].
    - eapply lastFetched_message; eassumption.
    - destruct Hsel as [-> _]. split; [exact Hinv|].
      intros p e He. exists e. cbn. split; [exact He|]. split; [lia | congruence]. }
  destruct H1 as [Hinv1 Hstep]. split.
  - eapply stamped_in_the_past_marks; eassumption.
  - intros p e He. destruct (Hstep p e He) as (e1 & He1 & Hle & Hch).
    specialize (Hm p). rewrite He1 in Hm.
    inversion Hm as [? e' Hmark|]; subst.
    exists e'. split; [congruence|].
    rewrite (marked_lastFetched _ _ Hmark). auto.
Qed.

(** C9. Over any sequence of events the actor processes, starting where no
    entry is stamped later than the clock's last reading (as in the empty
    table), the stamp of an entry never decreases, and it differs at the end
    only if one of the events was a [fetched] message for that entry's
    path. *)
Theorem lastFetched_never_decreases (fuel : nat) (evs : list event) :
  forall (w w' : world) (o : list effect),
    stamped_in_the_past w ->
    run_loop fuel evs w = Ok (tt, w', o) ->
    stamped_in_the_past w' /\
    forall p e, entries (keep w) !! p = Some e ->
      exists e', entries (keep w') !! p = Some e' /\
        lastFetched (info e) <= lastFetched (info e') /\
        (lastFetched (info e') <> lastFetched (info e) ->
         exists ev, ev ∈ evs /\ is_fetched_for p ev).
Proof.
  induction evs as [|ev evs IH]; intros w w' o Hinv H; simpl in H.
  - inversion H; subst. split; [exact Hinv|].
    intros p e He. exists e. split; [exact He|]. split; [lia | congruence].
  - apply bind_inv in H as ([] & w1 & o1 & o2 & Hturn & Hrest & _).
    destruct (lastFetched_turn _ _ _ _ _ Hinv Hturn) as [Hinv1 Hstep].
    destruct (IH _ _ _ Hinv1 Hrest) as [Hinv' Hrun].
    split; [exact Hinv'|].
    intros p e He.
    destruct (Hstep p e He) as (e1 & He1 & Hle1 & Hch1).
    destruct (Hrun p e1 He1) as (e' & He' & Hle' & Hch').
    exists e'. split; [exact He'|]. split; [lia|].
    intros Hne.
    destruct (decide (lastFetched (info e1) = lastFetched (info e))) as [Heq|Hne1].
    + destruct Hch' as (ev' & Hin & Hf); [congruence|].
      exists ev'. split; [apply elem_of_cons; now right | exact Hf].
    + exists ev. split; [apply elem_of_cons; now left | now apply Hch1].
Qed.

Lemma stamped_in_the_past_NewKeep (c : clock) :
  stamped_in_the_past (mkWorld NewKeep c).
Proof. intros p e He. cbn in He. rewrite lookup_empty in He. discriminate. Qed.

Lemma lastFetched_never_decreases_witness :
  exists w',
    stamped_in_the_past w' /\
    forall p e, entries (keep fetching_with_waiters) !! p = Some e ->
      exists e', entries (keep w') !! p = Some e' /\
        lastFetched (info e) <= lastFetched (info e') /\
        (lastFetched (info e') <> lastFetched (info e) ->
         exists ev, ev ∈ [Message (requestKeepMessage "/a");
                          Message (fetchedKeepMessage "/a" None)] /\
                    is_fetched_for p ev).
Proof.
  eexists.
  eapply (lastFetched_never_decreases 5
            [Message (requestKeepMessage "/a");
             Message (fetchedKeepMessage "/a" None)]
            fetching_with_waiters).
  - intros p e He.
    destruct (decide (p = "/a")) as [->|Hne].
    + vm_compute in He. inversion He; subst. vm_compute. discriminate.
    + unfold fetching_with_waiters, one_entry in He. cbn in He.
      rewrite lookup_singleton_ne in He by congruence. discriminate.
  - vm_compute. reflexivity.
Defined.

(** ** When the pass leaves the timer unarmed *)

(** Under an advancing clock every stamp is strictly before the reading the
    deadline computation takes; a pass that then returns without a timer
    has found every entry fetching (or the table empty). *)
Lemma serviceTimer_loop_unarmed (fuel : nat) :
  forall w w' o,
    advancing (clk w) -> stamped_in_the_past w ->
    timer (keep w) = None ->
    serviceTimer_loop fuel w = Ok (tt, w', o) ->
    timer (keep w') = None ->
    forall p e, entries (keep w') !! p = Some e -> fetching (info e) = true.
Proof.
  induction fuel as [|fuel IH]; intros w w' o Hadv Hpast Htimer H Hnone;
    [discriminate|].
  simpl in H.
  destruct (serviceTimer_turn_inv w) as (t & w1 & o1 & Hturn & He & Hc & _ & Ht).
  erewrite bind_Ok in H by exact Hturn.
  assert (Hm : only_marks (entries (keep w)) (entries (keep w1))).
  { rewrite He. apply only_marks_sweep. }
  assert (Hl : later_clock (clk w) (clk w1)).
  { rewrite Hc. apply serviceTimer_turn_clock. }
  assert (Hlt : reading (clk w) < reading (clk w1)).
  { rewrite Hc. cbn. pose proof (Hadv (reads (clk w))). lia. }
  destruct t.
  - inversion H; subst w1 o. clear H.
    destruct Ht as [[_ Hlate] | (q & e0 & _ & _ & _ & _ & Harmed)];
      [|congruence].
    intros p e Hp. destruct (fetching (info e)) eqn:F; [reflexivity|].
    exfalso. specialize (Hlate p e Hp F).
    specialize (Hm p). rewrite Hp in Hm.
    destruct (entries (keep w) !! p) as [e1|] eqn:Hp1;
      inversion Hm as [? ? Hmark|]; subst.
    rewrite (marked_lastFetched _ _ Hmark) in Hlate.
    specialize (Hpast p e1 Hp1). lia.
  - destruct Ht as [_ Htimer1].
    destruct (serviceTimer_loop fuel w1) as [[[[] w2] o2]| | |] eqn:Hrun;
      try discriminate.
    inversion H; subst w2 o. clear H.
    eapply (IH w1 w' o2); try eassumption.
    + eapply advancing_later; eassumption.
    + eapply stamped_in_the_past_marks; eassumption.
    + congruence.
Qed.

(** ** The fetch executor *)

Module FetchFacts.
Import Fetch.

(** [strings.Split] never returns an empty slice, so index 0 exists. *)
Lemma Split_nonempty (s : string) (sep : ascii) : Split s sep <> [].
Proof.
  destruct s as [|c s]; simpl; [discriminate|].
  destruct (Ascii.eqb c sep); [discriminate|].
  destruct (Split s sep); discriminate.
Qed.

(** The first piece is the text before the first separator. *)
Lemma mediaType_params (t params : string) :
  (forall c, In c (list_ascii_of_string t) -> c <> ";"%char) ->
  mediaType (t +:+ String ";" params) = t.
Proof.
  unfold mediaType. induction t as [|c t IH]; intros Hno; simpl.
  - reflexivity.
  - destruct (Ascii.eqb_spec c ";") as [->|_].
    + exfalso. apply (Hno ";"%char); [now left | reflexivity].
    + specialize (IH (fun c' Hc' => Hno c' (or_intror Hc'))).
      pose proof (Split_nonempty (t +:+ String ";" params) ";") as Hne.
      destruct (Split (t +:+ String ";" params) ";") as [|piece pieces];
        [contradiction|].
      simpl in *. now rewrite IH.
Qed.

Lemma mediaType_plain (t : string) :
  (forall c, In c (list_ascii_of_string t) -> c <> ";"%char) ->
  mediaType t = t.
Proof.
  unfold mediaType. induction t as [|c t IH]; intros Hno; simpl.
  - reflexivity.
  - destruct (Ascii.eqb_spec c ";") as [->|_].
    + exfalso. apply (Hno ";"%char); [now left | reflexivity].
    + specialize (IH (fun c' Hc' => Hno c' (or_intror Hc'))).
      pose proof (Split_nonempty t ";") as Hne.
      destruct (Split t ";") as [|piece pieces]; [contradiction|].
      simpl in *. now rewrite IH.
Qed.

Lemma filter_fetched_app (o1 o2 : list effect) :
  List.filter is_fetched (o1 ++ o2) =
    List.filter is_fetched o1 ++ List.filter is_fetched o2.
Proof. apply List.filter_app. Qed.

(** The body of [fetch] sends no [fetched] message itself, and leaves
    [dataPtr] set exactly when the copy succeeded. *)
Lemma fetch_body_spec (u : upstream) (p : string)
    (responseWriter : option ResponseWriter) :
  forall err dataPtr effects,
    fetch_body u p responseWriter = (err, dataPtr, effects) ->
    List.filter is_fetched effects = [] /\
    (forall data, dataPtr = Some data <-> copied u p responseWriter data) /\
    (forall q data, In (Go_Cache_Set q data) effects ->
       q = p /\ dataPtr = Some data).
Proof.
  intros err dataPtr effects. unfold fetch_body, copied.
  destruct (http_NewRequest u "GET" ("http://localhost:8085" +:+ p))
    as [req|e1] eqn:Hreq.
  2:{ intros H; inversion H; subst. repeat split; try discriminate.
      - intros (? & ? & ? & _); discriminate.
      - destruct H0 as [H0|[]]; discriminate.
      - destruct H0 as [H0|[]]; discriminate. }
  destruct (http_Do u req) as [resp|e2] eqn:Hdo.
  2:{ intros H; inversion H; subst. repeat split; try discriminate.
      - intros (r & ? & Hr & Hd & _). inversion Hr; subst. congruence.
      - destruct H0 as [H0|[]]; discriminate.
      - destruct H0 as [H0|[]]; discriminate. }
  destruct (String.eqb_spec (mediaType (ContentType resp)) "application/json")
    as [Hjson|Hother]; cbn [negb].
  2:{ intros H; inversion H; subst. repeat split; try discriminate.
      - destruct responseWriter; reflexivity.
      - intros (r & r' & Hr & Hd & Hm & _).
        inversion Hr; subst. rewrite Hd in Hdo. inversion Hdo; subst. contradiction.
      - destruct responseWriter; cbn in H0; intuition discriminate.
      - destruct responseWriter; cbn in H0; intuition discriminate. }
  destruct (io_Copy u responseWriter (Body resp)) as [data [e3|]] eqn:Hcopy.
  - intros H; inversion H; subst. repeat split; try discriminate.
    + destruct responseWriter; reflexivity.
    + intros (r & r' & Hr & Hd & _ & Hc).
      inversion Hr; subst. rewrite Hd in Hdo. inversion Hdo; subst. congruence.
    + destruct responseWriter; cbn in H0; intuition discriminate.
    + destruct responseWriter; cbn in H0; intuition discriminate.
  - intros H; inversion H; subst. repeat split.
    + destruct responseWriter; reflexivity.
    + intros H0; inversion H0; subst. now exists req, resp.
    + intros (r & r' & Hr & Hd & _ & Hc).
      inversion Hr; subst. rewrite Hd in Hdo. inversion Hdo; subst. congruence.
    + destruct responseWriter; cbn in H0; intuition congruence.
    + destruct responseWriter; cbn in H0; intuition congruence.
Qed.

(** C6. Whatever the upstream does, [fetch] sends exactly one [fetched]
    message, for its own path; the message carries bytes exactly when every
    step through the copy of the body succeeded, and then those of the
    buffer. *)
Theorem fetch_reports_exactly_once (u : upstream) (p : string)
    (responseWriter : option ResponseWriter) :
  exists dataPtr,
    List.filter is_fetched (fetch u p responseWriter).2
      = [sendFetchedMessage p dataPtr] /\
    forall data, dataPtr = Some data <-> copied u p responseWriter data.
Proof.
  unfold fetch.
  destruct (fetch_body u p responseWriter) as [[err dataPtr] effects] eqn:Hbody.
  apply fetch_body_spec in Hbody as (Hnone & Hdata & _).
  exists dataPtr. cbn. rewrite filter_fetched_app, Hnone. auto.
Qed.

Lemma fetch_reports_success_only_when_copied (u : upstream) (p : string)
    (responseWriter : option ResponseWriter) (q : string) (data : bytes) :
  In (sendFetchedMessage q (Some data)) (fetch u p responseWriter).2 \/
  In (Go_Cache_Set q data) (fetch u p responseWriter).2 ->
  q = p /\ copied u p responseWriter data.
Proof.
  unfold fetch.
  destruct (fetch_body u p responseWriter) as [[err dataPtr] effects] eqn:Hbody.
  apply fetch_body_spec in Hbody as (Hnone & Hdata & Hset).
  cbn. rewrite !in_app_iff. cbn.
  intros [[Hin | [Heq | []]] | [Hin | [Heq | []]]].
  - exfalso.
    assert (Hf : In (sendFetchedMessage q (Some data))
                    (List.filter is_fetched effects))
      by (apply filter_In; auto).
    rewrite Hnone in Hf. exact Hf.
  - inversion Heq; subst. split; [reflexivity|]. now apply Hdata.
  - destruct (Hset q data Hin) as [-> Hd]. split; [reflexivity|]. now apply Hdata.
  - discriminate.
Qed.

(** C8. Bytes are reported and handed to the cache only for a response
    whose content type, cut at the first [;], is [application/json]; for any
    other, [fetch] tells the live sink, if there is one, with status 400,
    returns no error, and still reports, without data.  Cutting at the first
    [;] drops the parameters. *)
Theorem content_type_gate (u : upstream) (p : string)
    (responseWriter : option ResponseWriter) :
  (forall q data,
     In (sendFetchedMessage q (Some data)) (fetch u p responseWriter).2 \/
     In (Go_Cache_Set q data) (fetch u p responseWriter).2 ->
     exists req resp,
       http_NewRequest u "GET" ("http://localhost:8085" +:+ p) = inl req /\
       http_Do u req = inl resp /\
       mediaType (ContentType resp) = "application/json") /\
  (forall req resp,
     http_NewRequest u "GET" ("http://localhost:8085" +:+ p) = inl req ->
     http_Do u req = inl resp ->
     mediaType (ContentType resp) <> "application/json" ->
     fetch u p responseWriter =
       (None, rejection responseWriter ++
              [Printf ("not JSON" +:+ nl); sendFetchedMessage p None])) /\
  StatusBadRequest = 400 /\
  (forall t params,
     (forall c, In c (list_ascii_of_string t) -> c <> ";"%char) ->
     mediaType (t +:+ String ";" params) = t /\ mediaType t = t).
Proof.
  split; [|split; [|split]].
  - intros q data H.
    apply fetch_reports_success_only_when_copied in H
      as (_ & req & resp & Hr & Hd & Hm & _).
    now exists req, resp.
  - intros req resp Hr Hd Hm. unfold fetch, fetch_body. rewrite Hr, Hd.
    destruct (String.eqb_spec (mediaType (ContentType resp)) "application/json");
      [contradiction|].
    cbn. unfold rejection. now rewrite <- app_assoc.
  - reflexivity.
  - intros t params Hno.
    split; [now apply mediaType_params | now apply mediaType_plain].
Qed.

Lemma content_type_gate_witness :
  fetch (answering "text/html; charset=utf-8" [Byte.x7b; Byte.x7d]) "/a" (Some 1%nat)
    = (None, [http_Error 1%nat "Endpoint does not return JSON" 400;
              Printf ("not JSON" +:+ nl);
              sendFetchedMessage "/a" None]) /\
  mediaType "application/json; charset=utf-8" = "application/json".
Proof.
  pose proof (content_type_gate
                (answering "text/html; charset=utf-8" [Byte.x7b; Byte.x7d])
                "/a" (Some 1%nat)) as (_ & Hreject & _ & Hcut).
  split.
  - apply (Hreject (mkRequest "GET" "http://localhost:8085/a")
                   (mkResponse "text/html; charset=utf-8" 0));
      [reflexivity | reflexivity | vm_compute; discriminate].
  - apply (Hcut "application/json" " charset=utf-8").
    intros c Hc. vm_compute in Hc.
    repeat (destruct Hc as [<- | Hc]; [discriminate|]). destruct Hc.
Defined.

End FetchFacts.

(** * Further properties of the actor *)

(** ** What a message does, in full *)

Lemma fan_out_effects (data : option bytes) (ws : list chan) (w : world) :
  range ws (fan_out data) w = Ok (tt, w, flat_map (served data) ws).
Proof.
  induction ws as [|c ws IH]; simpl; [reflexivity|].
  assert (Hc : fan_out data c w = Ok (tt, w, served data c)).
  { unfold fan_out, served. destruct data; reflexivity. }
  erewrite bind_Ok by exact Hc. now rewrite IH.
Qed.

Lemma handle_message_effects (msg : keepMessage) (w w' : world)
    (o : list effect) :
  handle_message msg w = Ok (tt, w', o) -> o = message_effects msg (keep w).
Proof.
  destruct w as [[es t] c].
  unfold handle_message, lookup_or_create, message_effects, flag, queue.
  unfold mbind, M_bind, bind, get_entries. cbn.
  destruct msg as [p|p ch|p data]; cbn;
    destruct (es !! p) as [e|] eqn:E; cbn; try discriminate.
  1-2, 4: intros H; inversion H; reflexivity.
  - destruct (fetching (info e)); cbn; intros H; inversion H; reflexivity.
  - destruct (fetching (info e)) eqn:F; cbn; [|discriminate].
    destruct data; unfold ret, emit; cbn; rewrite fan_out_effects; cbn;
      intros H; inversion H; now rewrite ?app_nil_r.
Qed.

(** A message fails only by the panic of the [fetched] case. *)
Lemma handle_message_outcome (msg : keepMessage) (w : world) :
  (exists w' o, handle_message msg w = Ok (tt, w', o)) \/
  (handle_message msg w = Panic "We got a fetched, but we're not fetching" /\
   exists data, msg = fetchedKeepMessage (Path msg) data /\
                flag (keep w) (Path msg) = false).
Proof.
  destruct w as [[es t] c].
  unfold handle_message, lookup_or_create, flag.
  unfold mbind, M_bind, bind, get_entries. cbn.
  destruct msg as [p|p ch|p data]; cbn;
    destruct (es !! p) as [e|] eqn:E; cbn.
  1-2, 4: left; eexists _, _; reflexivity.
  - left. destruct (fetching (info e)); cbn; eexists _, _; reflexivity.
  - destruct (fetching (info e)) eqn:F; cbn.
    + left. destruct data; unfold ret, emit; cbn; rewrite fan_out_effects;
        cbn; eexists _, _; reflexivity.
    + right. split; [reflexivity|]. now exists data.
  - right. split; [reflexivity|]. now exists data.
Qed.

(** ** What a run does to the table *)

Lemma only_marks_forward (m m' : gmap string entry) (p : string) (e : entry) :
  only_marks m m' -> m !! p = Some e ->
  exists e', m' !! p = Some e' /\ marked e e'.
Proof.
  intros Hm He. specialize (Hm p). rewrite He in Hm.
  inversion Hm as [? e' Hmark|]; subst. now exists e'.
Qed.

Lemma only_marks_backward (m m' : gmap string entry) (p : string) (e' : entry) :
  only_marks m m' -> m' !! p = Some e' ->
  exists e, m !! p = Some e /\ marked e e'.
Proof.
  intros Hm He. specialize (Hm p). rewrite He in Hm.
  inversion Hm as [e ? Hmark|]; subst. now exists e.
Qed.

Lemma marked_same_but_flag (e e' : entry) :
  marked e e' -> same_but_flag e e' /\
  (fetching (info e) = true -> fetching (info e') = true).
Proof.
  intros [-> | [F ->]]; unfold same_but_flag; cbn; auto 6.
Qed.

Lemma switched_path (msg : keepMessage) (now : Time) (e : entry) :
  path (info (switched msg now e)) = path (info e).
Proof.
  destruct msg; cbn; [reflexivity | | reflexivity].
  now destruct (fetching (info e)).
Qed.

Lemma switched_count (msg : keepMessage) (now : Time) (e : entry) :
  count (info (switched msg now e)) =
    match msg with
    | requestKeepMessage _ => wrap64 (count (info e) + 1)
    | _ => count (info e)
    end.
Proof.
  destruct msg; cbn; [reflexivity | | reflexivity].
  now destruct (fetching (info e)).
Qed.

Lemma found_path (w : world) (p : string) :
  path_keyed (keep w) -> path (info (found w p)) = p.
Proof.
  intros Hk. unfold found.
  destruct (entries (keep w) !! p) as [e|] eqn:E; [now apply Hk | reflexivity].
Qed.

Lemma found_count (w : world) (p : string) :
  count (info (found w p)) = count_of (keep w) p.
Proof. unfold found, count_of. now destruct (entries (keep w) !! p). Qed.

(** One turn of the loop: the message's entry is rewritten, then flags are
    raised. *)
Lemma run_turn_table (fuel : nat) (ev : event) (w w' : world)
    (o : list effect) :
  run_turn fuel ev w = Ok (tt, w', o) ->
  exists m1,
    only_marks m1 (entries (keep w')) /\
    match ev with
    | Message msg =>
        exists now,
          m1 = <[Path msg := switched msg now (found w (Path msg))]>
                 (entries (keep w))
    | TimerFired => m1 = entries (keep w)
    end.
Proof.
  intros H. apply run_turn_inv in H as (w1 & o1 & o2 & Hsel & Hsvc).
  apply serviceTimer_inv in Hsvc as [Hm _].
  exists (entries (keep w1)). split; [exact Hm|].
  destruct ev as [msg|].
  - apply handle_message_inv in Hsel as (He & _). eauto.
  - now destruct Hsel as [-> _].
Qed.

Lemma run_loop_cons_inv (fuel : nat) (ev : event) (evs : list event)
    (w w' : world) (o : list effect) :
  run_loop fuel (ev :: evs) w = Ok (tt, w', o) ->
  exists w1 o1 o2,
    run_turn fuel ev w = Ok (tt, w1, o1) /\
    run_loop fuel evs w1 = Ok (tt, w', o2) /\
    o = o1 ++ o2.
Proof.
  simpl. intros H.
  apply bind_inv in H as ([] & w1 & o1 & o2 & Hturn & Hrest & Ho). eauto 6.
Qed.

(** X2. Entries are created on the first message for a path and never
    removed: after a run, the table holds exactly the paths it held before
    and the paths of the messages processed, each entry under its own
    path. *)
Theorem entries_are_created_and_kept (fuel : nat) (evs : list event) :
  forall (w w' : world) (o : list effect),
    run_loop fuel evs w = Ok (tt, w', o) ->
    (forall p, is_Some (entries (keep w') !! p) <->
               is_Some (entries (keep w) !! p) \/
               exists msg, Message msg ∈ evs /\ Path msg = p) /\
    (path_keyed (keep w) -> path_keyed (keep w')).
Proof.
  induction evs as [|ev evs IH]; intros w w' o H.
  - simpl in H. inversion H; subst. split; [|auto].
    intros p. split; [auto|]. intros [Hp | (msg & Hin & _)]; [exact Hp|].
    inversion Hin.
  - apply run_loop_cons_inv in H as (w1 & o1 & o2 & Hturn & Hrest & _).
    destruct (IH _ _ _ Hrest) as [Hdom Hkeyed].
    apply run_turn_table in Hturn as (m1 & Hm & Hev).
    assert (Hstep : forall p, is_Some (entries (keep w1) !! p) <->
              is_Some (entries (keep w) !! p) \/
              exists msg, ev = Message msg /\ Path msg = p).
    { intros p. split.
      - intros [e1 He1].
        destruct (only_marks_backward _ _ _ _ Hm He1) as (e & He & _).
        destruct ev as [msg|].
        + destruct Hev as [now ->].
          destruct (decide (Path msg = p)) as [Heq|Hne].
          * right. now exists msg.
          * left. rewrite lookup_insert_ne in He by exact Hne. eauto.
        + subst m1. left. eauto.
      - intros Hp.
        assert (Hin : is_Some (m1 !! p)).
        { destruct ev as [msg|].
          - destruct Hev as [now ->].
            destruct (decide (Path msg = p)) as [<-|Hne].
            + rewrite lookup_insert_eq. eauto.
            + rewrite lookup_insert_ne by exact Hne.
              destruct Hp as [Hp | (msg' & Heq & Hpath)]; [exact Hp|].
              inversion Heq; subst. contradiction.
          - subst m1. destruct Hp as [Hp | (msg' & Heq & _)];
              [exact Hp | discriminate]. }
        destruct Hin as [e He].
        destruct (only_marks_forward _ _ _ _ Hm He) as (e' & He' & _). eauto. }
    split.
    + intros p. rewrite Hdom, Hstep. split.
      * intros [[Hp | (msg & -> & Hpath)] | (msg & Hin & Hpath)].
        -- now left.
        -- right. exists msg. split; [apply elem_of_cons; now left | exact Hpath].
        -- right. exists msg. split; [apply elem_of_cons; now right | exact Hpath].
      * intros [Hp | (msg & Hin & Hpath)]; [now left; left|].
        apply elem_of_cons in Hin as [<- | Hin].
        -- left. right. now exists msg.
        -- right. now exists msg.
    + intros Hk. apply Hkeyed. intros p e1 He1.
      destruct (only_marks_backward _ _ _ _ Hm He1) as (e & He & Hmark).
      apply marked_same_but_flag in Hmark as [(Hpath & _) _]. rewrite Hpath.
      destruct ev as [msg|].
      * destruct Hev as [now ->].
        destruct (decide (Path msg = p)) as [<-|Hne].
        -- rewrite lookup_insert_eq in He. inversion He; subst e.
           rewrite switched_path. now apply found_path.
        -- rewrite lookup_insert_ne in He by exact Hne. now apply (Hk p).
      * subst m1. now apply (Hk p).
Qed.

Lemma entries_are_created_and_kept_witness :
  exists w',
    (forall p, is_Some (entries (keep w') !! p) <->
               is_Some (entries (keep fetching_with_waiters) !! p) \/
               exists msg, Message msg ∈ [Message (requestKeepMessage "/b");
                                          Message (fetchedKeepMessage "/a" None)] /\
                           Path msg = p) /\
    (path_keyed (keep fetching_with_waiters) -> path_keyed (keep w')).
Proof.
  eexists.
  eapply (entries_are_created_and_kept 5
            [Message (requestKeepMessage "/b");
             Message (fetchedKeepMessage "/a" None)]
            fetching_with_waiters).
  vm_compute. reflexivity.
Defined.

(** ** Counting requests *)

Lemma wrap64_small (z : Z) : - 2 ^ 63 <= z < 2 ^ 63 -> wrap64 z = z.
Proof. intros H. unfold wrap64. rewrite Z.mod_small; lia. Qed.

Lemma marked_count (e e' : entry) :
  marked e e' -> count (info e') = count (info e).
Proof. now intros [-> | [_ ->]]. Qed.

Lemma only_marks_count (k k' : Keep) (p : string) :
  only_marks (entries k) (entries k') -> count_of k' p = count_of k p.
Proof.
  intros Hm. unfold count_of. specialize (Hm p).
  inversion Hm as [e e' Hmark|]; [now apply marked_count | reflexivity].
Qed.

(** One turn changes the count of [p] only if it processes a [request] for
    [p], and then by Go's [count++]. *)
Lemma run_turn_count (fuel : nat) (ev : event) (w w' : world)
    (o : list effect) (p : string) :
  run_turn fuel ev w = Ok (tt, w', o) ->
  count_of (keep w') p =
    match requests_for p [ev] with
    | O => count_of (keep w) p
    | S _ => wrap64 (count_of (keep w) p + 1)
    end.
Proof.
  intros H. apply run_turn_table in H as (m1 & Hm & Hev).
  rewrite (only_marks_count (mkKeep m1 None) (keep w') p Hm).
  unfold count_of at 1. cbn [entries].
  destruct ev as [msg|]; cbn [requests_for].
  - destruct Hev as [now ->].
    destruct (decide (Path msg = p)) as [Heq|Hne].
    + rewrite <- Heq, lookup_insert_eq, switched_count, found_count.
      destruct msg as [q|q ch|q data]; cbn in *; try reflexivity.
      now rewrite String.eqb_refl.
    + rewrite lookup_insert_ne by exact Hne. fold (count_of (keep w) p).
      destruct msg as [q|q ch|q data]; cbn in *; try reflexivity.
      destruct (String.eqb_spec q p); [contradiction | reflexivity].
  - subst m1. reflexivity.
Qed.

(** X3. [count] counts the [request] messages: over a run, the count of a
    path grows by the number of [request] messages processed for it, and by
    nothing else, as long as it stays below 2^63. *)
Theorem count_is_the_number_of_requests (fuel : nat) (evs : list event)
    (p : string) :
  forall (w w' : world) (o : list effect),
    run_loop fuel evs w = Ok (tt, w', o) ->
    0 <= count_of (keep w) p ->
    count_of (keep w) p + Z.of_nat (requests_for p evs) < 2 ^ 63 ->
    count_of (keep w') p = count_of (keep w) p + Z.of_nat (requests_for p evs).
Proof.
  induction evs as [|ev evs IH]; intros w w' o H Hpos Hbound.
  - simpl in H. inversion H; subst. simpl. lia.
  - apply run_loop_cons_inv in H as (w1 & o1 & o2 & Hturn & Hrest & _).
    pose proof (run_turn_count _ _ _ _ _ p Hturn) as Hstep.
    assert (Hsplit : requests_for p (ev :: evs) =
                     (requests_for p [ev] + requests_for p evs)%nat).
    { destruct ev as [[q|q ch|q data]|]; cbn; try reflexivity.
      now destruct (String.eqb q p). }
    rewrite Hsplit in *.
    destruct (requests_for p [ev]) as [|n] eqn:Hn.
    + rewrite (IH _ _ _ Hrest); rewrite Hstep; [lia | lia | simpl in *; lia].
    + assert (n = O) as ->.
      { destruct ev as [[q|q ch|q data]|]; cbn in Hn; try discriminate.
        destruct (String.eqb q p); congruence. }
      rewrite wrap64_small in Hstep by lia.
      rewrite (IH _ _ _ Hrest); rewrite Hstep; lia.
Qed.

Lemma count_is_the_number_of_requests_witness :
  exists w',
    count_of (keep w') "/a" =
      count_of (keep fetching_with_waiters) "/a" + 2.
Proof.
  eexists.
  eapply (count_is_the_number_of_requests 5
            [Message (requestKeepMessage "/a");
             Message (requestKeepMessage "/b");
             Message (fetchingKeepMessage "/a" 3%nat);
             Message (requestKeepMessage "/a")]
            "/a" fetching_with_waiters).
  - vm_compute. reflexivity.
  - vm_compute. discriminate.
  - vm_compute. reflexivity.
Defined.

(** ** Which fetches a scheduler pass starts *)

Lemma flag_lookup (k : Keep) (p : string) :
  flag k p = true <-> exists e, entries k !! p = Some e /\ fetching (info e) = true.
Proof.
  unfold flag. destruct (entries k !! p) as [e|]; split.
  - intros F. now exists e.
  - now intros (e' & [= <-] & F).
  - discriminate.
  - now intros (e' & [=] & _).
Qed.

Lemma only_marks_flag (k k' : Keep) (p : string) :
  only_marks (entries k) (entries k') ->
  flag k p = true -> flag k' p = true.
Proof.
  intros Hm. rewrite !flag_lookup. intros (e & He & F).
  destruct (only_marks_forward _ _ _ _ Hm He) as (e' & He' & Hmark).
  exists e'. split; [exact He'|]. now apply marked_same_but_flag in Hmark as [_ ->].
Qed.

Lemma path_keyed_marks (k k' : Keep) :
  only_marks (entries k) (entries k') -> path_keyed k -> path_keyed k'.
Proof.
  intros Hm Hk p e' He'.
  destruct (only_marks_backward _ _ _ _ Hm He') as (e & He & Hmark).
  apply marked_same_but_flag in Hmark as [(-> & _) _]. now apply (Hk p).
Qed.

Lemma flag_after_sweep (w : world) (p : string) :
  flag (keep (after_sweep w)) p =
    match entries (keep w) !! p with
    | Some e => fetching (info e) || expired (next_reading (clk w)) e
    | None => false
    end.
Proof.
  unfold flag, after_sweep. cbn. rewrite lookup_fmap.
  destruct (entries (keep w) !! p) as [e|]; cbn; [|reflexivity].
  unfold sweep_entry, expired.
  destruct (fetching (info e)) eqn:F; cbn; [exact F|].
  now destruct (Before _ _).
Qed.

(** The fetches of one sweep, for a table keyed by path: one for each entry
    that expired, and no path twice. *)
Lemma sweep_launches_keyed (w : world) :
  path_keyed (keep w) ->
  let started := launches (flat_map (sweep_effects (next_reading (clk w)))
                                    (map_to_list (entries (keep w)))) in
  NoDup started /\
  forall q s, (q, s) ∈ started <->
    s = None /\ flag (keep w) q = false /\ flag (keep (after_sweep w)) q = true.
Proof.
  intros Hk. cbn zeta. rewrite sweep_effects_launches.
  set (now := next_reading (clk w)).
  assert (Hin : forall (l : list (string * entry)) q s,
            (q, s) ∈ map (fun x : string * entry => (path (info x.2), None))
                         (List.filter (fun x => expired now x.2) l) <->
            exists x, x ∈ l /\ expired now x.2 = true /\
                      path (info x.2) = q /\ s = (None : option ResponseWriter)).
  { intros l q s. rewrite list_elem_of_In, in_map_iff. split.
    - intros (x & [= <- <-] & Hx). apply filter_In in Hx as [Hx X].
      exists x. rewrite list_elem_of_In. auto.
    - intros (x & Hx & X & <- & ->). exists x. split; [reflexivity|].
      apply filter_In. rewrite <- list_elem_of_In. auto. }
  split.
  - assert (Hkeys : forall x, x ∈ map_to_list (entries (keep w)) ->
                      path (info x.2) = x.1).
    { intros [q e] Hx. apply elem_of_map_to_list in Hx. now apply Hk. }
    pose proof (NoDup_fst_map_to_list (entries (keep w))) as Hnd.
    induction (map_to_list (entries (keep w))) as [|x l IH]; simpl;
      [constructor|].
    rewrite fmap_cons in Hnd. apply NoDup_cons in Hnd as [Hfresh Hnd].
    assert (IH' := IH (fun y Hy => Hkeys y (list_elem_of_further _ _ _ Hy)) Hnd).
    destruct (expired now x.2); [|exact IH'].
    simpl. apply NoDup_cons. split; [|exact IH'].
    intros Hx. apply Hin in Hx as (y & Hy & _ & Hpath & _).
    apply Hfresh. apply list_elem_of_fmap. exists y. split; [|exact Hy].
    rewrite <- (Hkeys y) by (now apply list_elem_of_further).
    rewrite Hpath. symmetry. apply Hkeys. apply list_elem_of_here.
  - intros q s. rewrite Hin, flag_after_sweep. unfold flag. split.
    + intros ([q' e] & Hx & X & Hpath & ->).
      apply elem_of_map_to_list in Hx. cbn in *.
      rewrite (Hk _ _ Hx) in Hpath. subst q'. rewrite Hx.
      unfold expired in X |- *. apply andb_true_iff in X as [F B].
      apply negb_true_iff in F. rewrite F, B. auto.
    + intros (-> & F & X).
      destruct (entries (keep w) !! q) as [e|] eqn:E; [|discriminate].
      exists (q, e). rewrite elem_of_map_to_list. cbn.
      rewrite F in X. cbn in X. pose proof (Hk q e E). auto.
Qed.

(** The same for a whole run of the [for] in [serviceTimer]. *)
Lemma serviceTimer_loop_launches (fuel : nat) :
  forall (w w' : world) (o : list effect),
    serviceTimer_loop fuel w = Ok (tt, w', o) ->
    path_keyed (keep w) ->
    NoDup (launches o) /\
    forall q s, (q, s) ∈ launches o <->
      s = None /\ flag (keep w) q = false /\ flag (keep w') q = true.
Proof.
  induction fuel as [|fuel IH]; intros w w' o H Hk; [discriminate|].
  simpl in H.
  destruct (serviceTimer_turn_inv w) as (t & w1 & o1 & Hturn & He & _ & Hl & _).
  erewrite bind_Ok in H by exact Hturn.
  destruct (sweep_launches_keyed w Hk) as [Hnd1 Hin1].
  rewrite <- Hl in Hnd1, Hin1.
  assert (Hflag1 : forall q, flag (keep w1) q = flag (keep (after_sweep w)) q).
  { intros q. unfold flag. now rewrite He. }
  destruct t.
  - inversion H; subst w1 o. rewrite app_nil_r.
    split; [exact Hnd1|]. intros q s. now rewrite Hin1, Hflag1.
  - destruct (serviceTimer_loop fuel w1) as [[[[] w2] o2]| | |] eqn:Hrun;
      try discriminate.
    inversion H; subst w2 o. clear H.
    assert (Hm1 : only_marks (entries (keep w)) (entries (keep w1))).
    { rewrite He. apply only_marks_sweep. }
    destruct (IH _ _ _ Hrun (path_keyed_marks _ _ Hm1 Hk)) as [Hnd2 Hin2].
    apply serviceTimer_loop_inv in Hrun as [Hm2 _].
    rewrite launches_app. split.
    + apply NoDup_app. split; [exact Hnd1|]. split; [|exact Hnd2].
      intros [q s] Hx1 Hx2.
      apply Hin1 in Hx1 as (_ & _ & F1). apply Hin2 in Hx2 as (_ & F2 & _).
      rewrite <- Hflag1 in F1. congruence.
    + intros q s. rewrite elem_of_app, Hin1, Hin2, <- Hflag1. split.
      * intros [(-> & F & F1) | (-> & F1 & F')].
        -- repeat split; auto. now apply (only_marks_flag (keep w1)).
        -- repeat split; auto.
           destruct (flag (keep w) q) eqn:F; [|reflexivity].
           apply (only_marks_flag _ (keep w1)) in F; [congruence | exact Hm1].
      * intros (-> & F & F').
        destruct (flag (keep w1) q) eqn:F1; [left | right]; auto.
Qed.

Lemma serviceTimer_launches (fuel : nat) (w w' : world) (o : list effect) :
  serviceTimer fuel w = Ok (tt, w', o) ->
  path_keyed (keep w) ->
  NoDup (launches o) /\
  forall q s, (q, s) ∈ launches o <->
    s = None /\ flag (keep w) q = false /\ flag (keep w') q = true.
Proof.
  unfold serviceTimer, mbind, M_bind, bind, get_timer.
  destruct (timer (keep w)).
  - intros H _. inversion H; subst. split; [constructor|].
    intros q s. split; [intros Hin; inversion Hin|].
    intros (_ & F & F'). congruence.
  - destruct (serviceTimer_loop fuel w) as [[[[] w2] o2]| | |] eqn:Hrun;
      try discriminate.
    intros H Hk. inversion H; subst.
    exact (serviceTimer_loop_launches fuel _ _ _ Hrun Hk).
Qed.

(** X4. A scheduler pass starts a background fetch, without a sink, for
    exactly the paths whose flag it raises, and for none of them twice. *)
Theorem a_pass_fetches_what_it_marks (fuel : nat) (w w' : world)
    (o : list effect) :
  serviceTimer fuel w = Ok (tt, w', o) ->
  path_keyed (keep w) ->
  NoDup (launches o) /\
  (forall q s, (q, s) ∈ launches o -> s = None) /\
  (forall q, (q, None) ∈ launches o <->
     flag (keep w) q = false /\ flag (keep w') q = true).
Proof.
  intros H Hk. destruct (serviceTimer_launches _ _ _ _ H Hk) as [Hnd Hin].
  split; [exact Hnd|]. split.
  - intros q s Hq. now apply Hin in Hq as (-> & _).
  - intros q. rewrite Hin. intuition.
Qed.

Lemma path_keyed_two_entries : path_keyed (keep two_entries).
Proof.
  intros p e He. unfold two_entries in He. cbn in He.
  destruct (decide (p = "/a")) as [->|Ha].
  - vm_compute in He. now inversion He.
  - rewrite lookup_insert_ne in He by congruence.
    destruct (decide (p = "/b")) as [->|Hb].
    + vm_compute in He. now inversion He.
    + rewrite lookup_singleton_ne in He by congruence. discriminate.
Qed.

Lemma a_pass_fetches_what_it_marks_witness :
  exists w' o,
    serviceTimer 3 two_entries = Ok (tt, w', o) /\
    NoDup (launches o) /\
    (forall q s, (q, s) ∈ launches o -> s = None) /\
    (forall q, (q, None) ∈ launches o <->
       flag (keep two_entries) q = false /\ flag (keep w') q = true).
Proof.
  eexists _, _. split; [vm_compute; reflexivity|].
  eapply (a_pass_fetches_what_it_marks 3 two_entries).
  - vm_compute. reflexivity.
  - exact path_keyed_two_entries.
Defined.

(** ** While a fetch is outstanding *)

Lemma message_effects_start_nothing (msg : keepMessage) (k : Keep) :
  launches (message_effects msg k) = [] /\ timers (message_effects msg k) = [].
Proof.
  destruct msg as [p|p ch|p data]; cbn.
  - auto.
  - destruct (flag k p); auto.
  - assert (H : forall ws, launches (flat_map (served data) ws) = [] /\
                           timers (flat_map (served data) ws) = []).
    { induction ws as [|c ws [IH1 IH2]]; [auto|].
      destruct data; cbn; auto. }
    destruct (H (queue k p)) as [H1 H2]. destruct data; cbn; auto.
Qed.

Lemma sweep_effects_quiet (now : Time) (l : list (string * entry)) :
  closes (flat_map (sweep_effects now) l) = [] /\
  sends (flat_map (sweep_effects now) l) = [].
Proof.
  induction l as [|x l [IH1 IH2]]; simpl; [auto|].
  rewrite closes_app, sends_app, IH1, IH2. unfold sweep_effects.
  now destruct (expired now x.2).
Qed.

Lemma serviceTimer_turn_quiet (w w1 : world) (t : turn) (o1 : list effect) :
  serviceTimer_turn w = Ok (t, w1, o1) ->
  closes o1 = [] /\ sends o1 = [].
Proof.
  rewrite serviceTimer_turn_runs. cbn zeta.
  destruct (sweep_effects_quiet (next_reading (clk w))
              (map_to_list (entries (keep w)))) as [Hc Hs].
  destruct (negb _).
  - intros H; inversion H; subst. cbn [closes sends]. auto.
  - destruct (0 <? _); intros H; inversion H; subst; cbn [closes sends];
      [|auto].
    now rewrite closes_app, sends_app, Hc, Hs.
Qed.

(** A scheduler pass does nothing to any channel. *)
Lemma serviceTimer_loop_quiet (fuel : nat) :
  forall (w w' : world) (o : list effect),
    serviceTimer_loop fuel w = Ok (tt, w', o) ->
    closes o = [] /\ sends o = [].
Proof.
  induction fuel as [|fuel IH]; intros w w' o H; [discriminate|].
  simpl in H.
  apply bind_inv in H as (t & w1 & o1 & o2 & Hturn & H & ->).
  destruct (serviceTimer_turn_quiet _ _ _ _ Hturn) as [Hc Hs].
  rewrite closes_app, sends_app, Hc, Hs.
  destruct t.
  - inversion H; subst. auto.
  - exact (IH _ _ _ H).
Qed.

Lemma serviceTimer_quiet (fuel : nat) (w w' : world) (o : list effect) :
  serviceTimer fuel w = Ok (tt, w', o) -> closes o = [] /\ sends o = [].
Proof.
  unfold serviceTimer, mbind, M_bind, bind, get_timer.
  destruct (timer (keep w)).
  - intros H; inversion H; auto.
  - destruct (serviceTimer_loop fuel w) as [[[[] w2] o2]| | |] eqn:Hrun;
      try discriminate.
    intros H; inversion H; subst. exact (serviceTimer_loop_quiet fuel _ _ _ Hrun).
Qed.

(** One turn of [run], with its effects: those of the message, then those
    of the scheduler pass. *)
Lemma run_turn_split (fuel : nat) (ev : event) (w w' : world)
    (o : list effect) :
  run_turn fuel ev w = Ok (tt, w', o) ->
  exists w1 o2,
    serviceTimer fuel w1 = Ok (tt, w', o2) /\
    match ev with
    | Message msg =>
        handle_message msg w = Ok (tt, w1, message_effects msg (keep w)) /\
        o = message_effects msg (keep w) ++ o2
    | TimerFired =>
        w1 = mkWorld (mkKeep (entries (keep w)) None) (clk w) /\
        is_Some (timer (keep w)) /\ o = o2
    end.
Proof.
  unfold run_turn. intros H.
  apply bind_inv in H as ([] & w1 & o1 & o2 & Hsel & Hsvc & ->).
  exists w1, o2. split; [exact Hsvc|].
  destruct ev as [msg|].
  - rewrite <- (handle_message_effects _ _ _ _ Hsel). auto.
  - unfold mbind, M_bind, bind, get_timer, set_timer, blocked in Hsel.
    destruct (timer (keep w)) eqn:T; inversion Hsel; subst. eauto.
Qed.

Lemma path_keyed_message (msg : keepMessage) (w w' : world) (o : list effect) :
  handle_message msg w = Ok (tt, w', o) ->
  path_keyed (keep w) -> path_keyed (keep w').
Proof.
  intros H Hk. apply handle_message_inv in H as (He & _).
  intros p e Hp. rewrite He in Hp.
  destruct (decide (Path msg = p)) as [<-|Hne].
  - rewrite lookup_insert_eq in Hp. inversion Hp; subst e.
    rewrite switched_path. now apply found_path.
  - rewrite lookup_insert_ne in Hp by exact Hne. now apply (Hk p).
Qed.

(** A turn that is not the report for [p] leaves a fetching [p] fetching,
    queues the turn's follower if there is one, and starts no fetch for
    [p]. *)
Lemma run_turn_while_fetching (fuel : nat) (ev : event) (w w' : world)
    (o : list effect) (p : string) :
  run_turn fuel ev w = Ok (tt, w', o) ->
  flag (keep w) p = true ->
  ~ is_fetched_for p ev ->
  flag (keep w') p = true /\
  queue (keep w') p = queue (keep w) p ++ followers p [ev] /\
  (path_keyed (keep w) ->
   path_keyed (keep w') /\ forall s, (p, s) ∉ launches o).
Proof.
  intros H F Hev.
  apply run_turn_split in H as (w1 & o2 & Hsvc & Hsel).
  assert (H1 : flag (keep w1) p = true /\
               queue (keep w1) p = queue (keep w) p ++ followers p [ev] /\
               (path_keyed (keep w) -> path_keyed (keep w1)) /\
               launches o = launches o2).
  { destruct ev as [msg|].
    - destruct Hsel as [Hmsg ->].
      pose proof (path_keyed_message _ _ _ _ Hmsg) as Hk1.
      destruct (message_effects_start_nothing msg (keep w)) as [Hl _].
      rewrite launches_app, Hl.
      apply handle_message_inv in Hmsg as (He & _).
      unfold flag, queue in *. rewrite He.
      destruct (decide (Path msg = p)) as [Heq|Hne].
      + rewrite Heq, lookup_insert_eq. unfold found. rewrite <- Heq in F |- *.
        destruct (entries (keep w) !! Path msg) as [e|] eqn:E; [|discriminate].
        destruct msg as [q|q ch|q data]; cbn in *.
        * rewrite app_nil_r.
          destruct (String.eqb q p); auto.
        * rewrite F. cbn. subst q. rewrite String.eqb_refl. auto.
        * exfalso. apply Hev. subst q. now exists data.
      + rewrite lookup_insert_ne by exact Hne.
        assert (followers p [Message msg] = []) as ->.
        { destruct msg as [q|q ch|q data]; cbn in *; try reflexivity.
          destruct (String.eqb_spec q p); [contradiction | reflexivity]. }
        rewrite app_nil_r. auto.
    - destruct Hsel as (-> & _ & ->). cbn. rewrite app_nil_r. auto. }
  destruct H1 as (F1 & Hq1 & Hk1 & Hl).
  pose proof (serviceTimer_inv _ _ _ _ Hsvc) as [Hm _].
  split; [now apply (only_marks_flag (keep w1))|]. split.
  - rewrite <- Hq1. unfold flag, queue in *.
    destruct (entries (keep w1) !! p) as [e1|] eqn:E1; [|discriminate].
    destruct (only_marks_forward _ _ _ _ Hm E1) as (e' & -> & Hmark).
    now apply marked_same_but_flag in Hmark as [(_ & _ & _ & ->) _].
  - intros Hk. split; [eapply path_keyed_marks; eauto|].
    intros s Hin. rewrite Hl in Hin.
    apply (serviceTimer_launches _ _ _ _ Hsvc (Hk1 Hk)) in Hin as (_ & F' & _).
    congruence.
Qed.

Lemma followers_cons (p : string) (ev : event) (evs : list event) :
  followers p (ev :: evs) = followers p [ev] ++ followers p evs.
Proof.
  destruct ev as [[q|q ch|q data]|]; cbn; try reflexivity.
  now destruct (String.eqb q p).
Qed.

Lemma run_loop_while_fetching (fuel : nat) (evs : list event) (p : string) :
  forall (w w' : world) (o : list effect),
    run_loop fuel evs w = Ok (tt, w', o) ->
    flag (keep w) p = true ->
    no_report_for p evs ->
    flag (keep w') p = true /\
    queue (keep w') p = queue (keep w) p ++ followers p evs /\
    (path_keyed (keep w) -> forall s, (p, s) ∉ launches o).
Proof.
  induction evs as [|ev evs IH]; intros w w' o H F Hno.
  - simpl in H. inversion H; subst. cbn. rewrite app_nil_r.
    repeat split; auto. intros _ s Hin. inversion Hin.
  - apply run_loop_cons_inv in H as (w1 & o1 & o2 & Hturn & Hrest & ->).
    assert (Hev : ~ is_fetched_for p ev) by (apply Hno, list_elem_of_here).
    assert (Hno' : no_report_for p evs).
    { intros ev' Hin. now apply Hno, list_elem_of_further. }
    destruct (run_turn_while_fetching _ _ _ _ _ p Hturn F Hev)
      as (F1 & Hq1 & Hl1).
    destruct (IH _ _ _ Hrest F1 Hno') as (F' & Hq' & Hl').
    split; [exact F'|]. split.
    + now rewrite Hq', Hq1, (followers_cons p ev evs), app_assoc.
    + intros Hk s. destruct (Hl1 Hk) as [Hk1 Hl1'].
      rewrite launches_app, elem_of_app.
      intros [Hin | Hin]; [now apply (Hl1' s) | now apply (Hl' Hk1 s)].
Qed.

(** X5. At most one fetch per path: while a path is fetching and no
    [fetched] message for it is processed, it stays fetching and the
    scheduler starts no fetch for it, whatever other messages and timer
    fires the actor handles. *)
Theorem no_second_fetch_while_fetching (fuel : nat) (evs : list event)
    (p : string) (w w' : world) (o : list effect) :
  run_loop fuel evs w = Ok (tt, w', o) ->
  path_keyed (keep w) ->
  flag (keep w) p = true ->
  no_report_for p evs ->
  flag (keep w') p = true /\ forall s, (p, s) ∉ launches o.
Proof.
  intros H Hk F Hno.
  destruct (run_loop_while_fetching _ _ _ _ _ _ H F Hno) as (F' & _ & Hl).
  auto.
Qed.

(** X6. Followers queue in arrival order: while a path is fetching and no
    [fetched] message for it is processed, the reply channels of the
    [fetching] messages for it are appended to its queue in the order
    processed, and nothing else touches the queue. *)
Theorem followers_queue_in_arrival_order (fuel : nat) (evs : list event)
    (p : string) (w w' : world) (o : list effect) :
  run_loop fuel evs w = Ok (tt, w', o) ->
  flag (keep w) p = true ->
  no_report_for p evs ->
  queue (keep w') p = queue (keep w) p ++ followers p evs.
Proof.
  intros H F Hno.
  now destruct (run_loop_while_fetching _ _ _ _ _ _ H F Hno) as (_ & Hq & _).
Qed.

Lemma path_keyed_fetching_with_waiters :
  path_keyed (keep fetching_with_waiters).
Proof.
  intros p e He. unfold fetching_with_waiters, one_entry in He. cbn in He.
  destruct (decide (p = "/a")) as [->|Hne].
  - vm_compute in He. now inversion He.
  - rewrite lookup_singleton_ne in He by congruence. discriminate.
Qed.

Lemma no_report_in_sample : no_report_for "/a" sample_traffic.
Proof.
  intros ev Hin [data ->]. unfold sample_traffic in Hin.
  repeat (apply elem_of_cons in Hin as [Hin | Hin]; [discriminate|]).
  inversion Hin.
Qed.

Lemma sample_traffic_runs :
  exists w' o, run_loop 5 sample_traffic fetching_with_waiters = Ok (tt, w', o).
Proof. eexists _, _. vm_compute. reflexivity. Qed.

Lemma no_second_fetch_while_fetching_witness :
  exists w' o,
    run_loop 5 sample_traffic fetching_with_waiters = Ok (tt, w', o) /\
    flag (keep w') "/a" = true /\ forall s, ("/a", s) ∉ launches o.
Proof.
  destruct sample_traffic_runs as (w' & o & H).
  exists w', o. split; [exact H|].
  apply (no_second_fetch_while_fetching 5 sample_traffic "/a"
           fetching_with_waiters w' o H).
  - exact path_keyed_fetching_with_waiters.
  - reflexivity.
  - exact no_report_in_sample.
Defined.

Lemma followers_queue_in_arrival_order_witness :
  exists w' o,
    run_loop 5 sample_traffic fetching_with_waiters = Ok (tt, w', o) /\
    queue (keep w') "/a" = [7%nat; 8%nat] ++ followers "/a" sample_traffic.
Proof.
  destruct sample_traffic_runs as (w' & o & H).
  exists w', o. split; [exact H|].
  apply (followers_queue_in_arrival_order 5 sample_traffic "/a"
           fetching_with_waiters w' o H).
  - reflexivity.
  - exact no_report_in_sample.
Defined.

(** ** The report serves everyone who queued *)

Lemma run_loop_app_inv (fuel : nat) (evs1 evs2 : list event) :
  forall (w w' : world) (o : list effect),
    run_loop fuel (evs1 ++ evs2) w = Ok (tt, w', o) ->
    exists w1 o1 o2,
      run_loop fuel evs1 w = Ok (tt, w1, o1) /\
      run_loop fuel evs2 w1 = Ok (tt, w', o2) /\
      o = o1 ++ o2.
Proof.
  induction evs1 as [|ev evs1 IH]; intros w w' o H.
  - exists w, [], o. auto.
  - rewrite <- app_comm_cons in H.
    apply run_loop_cons_inv in H as (wa & oa & ob & Hturn & Hrest & ->).
    destruct (IH _ _ _ Hrest) as (w1 & o1 & o2 & H1 & H2 & ->).
    exists w1, (oa ++ o1), o2. split; [|split; [exact H2 | apply app_assoc]].
    simpl. erewrite bind_Ok by exact Hturn. now rewrite H1.
Qed.

Lemma served_operations (data : option bytes) (ws : list chan) :
  match data with
  | Some d => sends (flat_map (served data) ws) = map (fun c => (c, d)) ws /\
              closes (flat_map (served data) ws) = []
  | None => closes (flat_map (served data) ws) = ws /\
            sends (flat_map (served data) ws) = []
  end.
Proof.
  destruct data as [d|]; induction ws as [|c ws [IH1 IH2]]; cbn; auto.
  - now rewrite IH1, IH2.
  - now rewrite IH1, IH2.
Qed.

(** X7. The report serves everyone who queued: when the [fetched] message
    for a fetching path is processed after any other traffic, its turn sends
    the reported bytes to (or, without data, closes) the waiters that were
    queued at the start followed by every follower that arrived since, in
    that order, each once, and leaves the queue empty. *)
Theorem the_report_serves_every_follower (fuel : nat) (evs : list event)
    (p : string) (data : option bytes) (w w' : world) (o : list effect) :
  run_loop fuel (evs ++ [Message (fetchedKeepMessage p data)]) w
    = Ok (tt, w', o) ->
  flag (keep w) p = true ->
  no_report_for p evs ->
  exists w1 o1 o2,
    run_loop fuel evs w = Ok (tt, w1, o1) /\
    run_turn fuel (Message (fetchedKeepMessage p data)) w1 = Ok (tt, w', o2) /\
    o = o1 ++ o2 /\
    queue (keep w') p = [] /\
    match data with
    | Some d =>
        sends o2 = map (fun c => (c, d)) (queue (keep w) p ++ followers p evs) /\
        closes o2 = []
    | None =>
        closes o2 = queue (keep w) p ++ followers p evs /\ sends o2 = []
    end.
Proof.
  intros H F Hno.
  apply run_loop_app_inv in H as (w1 & o1 & o2 & H1 & H2 & ->).
  apply run_loop_cons_inv in H2 as (w2 & oa & ob & Hturn & Hnil & ->).
  simpl in Hnil. inversion Hnil; subst w2 ob. rewrite app_nil_r.
  exists w1, o1, oa. split; [exact H1|]. split; [exact Hturn|].
  split; [reflexivity|].
  destruct (run_loop_while_fetching _ _ _ _ _ _ H1 F Hno) as (_ & Hq & _).
  apply run_turn_split in Hturn as (wm & os & Hsvc & Hmsg & ->).
  destruct (serviceTimer_quiet _ _ _ _ Hsvc) as [Hc Hs].
  apply serviceTimer_inv in Hsvc as [Hm _].
  apply handle_message_inv in Hmsg as (He & _).
  split.
  - unfold queue.
    destruct (entries (keep w') !! p) as [e'|] eqn:E'; [|reflexivity].
    destruct (only_marks_backward _ _ _ _ Hm E') as (e & Hp & Hmark).
    apply marked_same_but_flag in Hmark as [(_ & _ & _ & ->) _].
    rewrite He in Hp. cbn in Hp. rewrite lookup_insert_eq in Hp.
    now inversion Hp.
  - rewrite closes_app, sends_app, Hc, Hs, !app_nil_r.
    cbn [message_effects]. rewrite closes_app, sends_app, Hq.
    pose proof (served_operations data (queue (keep w) p ++ followers p evs))
      as Hserved.
    destruct data as [d|]; cbn; exact Hserved.
Qed.

Lemma sample_traffic_and_report_runs :
  exists w' o,
    run_loop 5 (sample_traffic ++ [Message (fetchedKeepMessage "/a" (Some [Byte.x2a]))])
             fetching_with_waiters = Ok (tt, w', o).
Proof. eexists _, _. vm_compute. reflexivity. Qed.

Lemma the_report_serves_every_follower_witness :
  exists w' o2,
    queue (keep w') "/a" = [] /\
    sends o2 = map (fun c => (c, [Byte.x2a]))
                   (queue (keep fetching_with_waiters) "/a" ++
                    followers "/a" sample_traffic) /\
    closes o2 = [].
Proof.
  destruct sample_traffic_and_report_runs as (w' & o & H).
  destruct (the_report_serves_every_follower 5 sample_traffic
              "/a" (Some [Byte.x2a]) fetching_with_waiters w' o
              H eq_refl no_report_in_sample)
    as (w1 & o1 & o2 & _ & _ & _ & Hq & Hs & Hc).
  exists w', o2. split; [exact Hq|]. split; [exact Hs | exact Hc].
Defined.

(** ** The timer *)

(** A turn of the scheduler's loop creates a timer only when it stores it,
    and then for the nearest deadline. *)
Lemma serviceTimer_turn_timer (w w1 : world) (t : turn) (o1 : list effect) :
  serviceTimer_turn w = Ok (t, w1, o1) ->
  (timer (keep w1) = timer (keep w) /\ timers o1 = []) \/
  (t = Returned /\ exists d,
     timer (keep w1) = Some d /\ timers o1 = [d] /\ nearest_deadline w1 d).
Proof.
  rewrite serviceTimer_turn_runs. cbn zeta.
  set (w0 := after_sweep w).
  set (now := next_reading (clk w0)).
  set (ea := earliest_of now (map_to_list (entries (keep w0)))).
  set (d := if ea + expireDuration <? now then 0 else ea + expireDuration - now).
  pose proof (sweep_effects_no_timer (next_reading (clk w))
                (map_to_list (entries (keep w)))) as Hno.
  destruct (Z.ltb_spec ea now) as [Hlt|Hge]; cbn [negb].
  - destruct (Z.ltb_spec 0 d) as [Hpos|Hnpos].
    + intros H; inversion H; subst t w1 o1. clear H. right.
      split; [reflexivity|]. exists d. cbn [keep timer entries clk].
      split; [reflexivity|]. split.
      { cbn [timers]. rewrite timers_app, Hno. reflexivity. }
      assert (Hd : d = ea + expireDuration - now).
      { unfold d in *. destruct (Z.ltb_spec (ea + expireDuration) now); lia. }
      split; [lia|].
      destruct (earliest_of_attained now _ Hlt) as ([p e] & Hin & Hi & Hs).
      apply elem_of_map_to_list in Hin.
      unfold idle in Hi. cbn in Hi, Hs. apply negb_true_iff in Hi.
      exists p, e. split; [exact Hin|]. split; [exact Hi|].
      split; [rewrite Hs; exact Hd|].
      intros q e2 He2 F2. rewrite Hs.
      apply (earliest_of_le_stamp now _ (q, e2)).
      * now apply elem_of_map_to_list.
      * unfold idle. cbn. now rewrite F2.
    + intros H; inversion H; subst. left. cbn [timers]. auto.
  - intros H; inversion H; subst. left. cbn [timers]. auto.
Qed.

Lemma serviceTimer_loop_timer (fuel : nat) :
  forall (w w' : world) (o : list effect),
    serviceTimer_loop fuel w = Ok (tt, w', o) ->
    (timer (keep w') = timer (keep w) /\ timers o = []) \/
    (exists d, timer (keep w') = Some d /\ timers o = [d] /\
               nearest_deadline w' d).
Proof.
  induction fuel as [|fuel IH]; intros w w' o H; [discriminate|].
  simpl in H.
  apply bind_inv in H as (t & w1 & o1 & o2 & Hturn & H & ->).
  rewrite timers_app.
  destruct (serviceTimer_turn_timer _ _ _ _ Hturn)
    as [[Ht Ho] | (-> & d & Ht & Ho & Hd)].
  - rewrite Ho, <- Ht. destruct t.
    + inversion H; subst. left. auto.
    + exact (IH _ _ _ H).
  - inversion H; subst. right. exists d. rewrite Ho. auto.
Qed.

(** X8. A scheduler pass creates at most one timer, and only the one it
    stores; it arms one only when none is armed, always for a duration
    strictly between 0 and [expireDuration], namely the time left to the
    earliest deadline among the entries it leaves idle. *)
Theorem a_pass_arms_the_nearest_deadline (fuel : nat) (w w' : world)
    (o : list effect) :
  serviceTimer fuel w = Ok (tt, w', o) ->
  match timer (keep w) with
  | Some d0 => w' = w /\ o = []
  | None =>
      match timer (keep w') with
      | Some d => timers o = [d] /\ nearest_deadline w' d
      | None => timers o = []
      end
  end.
Proof.
  unfold serviceTimer, mbind, M_bind, bind, get_timer.
  destruct (timer (keep w)) as [d0|] eqn:T.
  - intros H; inversion H; subst. auto.
  - destruct (serviceTimer_loop fuel w) as [[[[] w2] o2]| | |] eqn:Hrun;
      try discriminate.
    intros H; inversion H; subst w2 o. clear H.
    destruct (serviceTimer_loop_timer _ _ _ _ Hrun)
      as [[Ht Ho] | (d & Ht & Ho & Hd)].
    + rewrite Ht, T. exact Ho.
    + rewrite Ht. auto.
Qed.

Lemma two_entries_pass_runs :
  exists w' o d,
    serviceTimer 3 two_entries = Ok (tt, w', o) /\ timer (keep w') = Some d.
Proof.
  eexists _, _, _. split; [vm_compute; reflexivity|]. vm_compute. reflexivity.
Qed.

Lemma a_pass_arms_the_nearest_deadline_witness :
  exists w' o d,
    serviceTimer 3 two_entries = Ok (tt, w', o) /\
    timer (keep w') = Some d /\
    timers o = [d] /\ nearest_deadline w' d.
Proof.
  destruct two_entries_pass_runs as (w' & o & d & H & T).
  exists w', o, d. split; [exact H|]. split; [exact T|].
  pose proof (a_pass_arms_the_nearest_deadline 3 two_entries w' o H) as Hp.
  change (timer (keep two_entries)) with (@None Duration) in Hp.
  cbv beta iota in Hp. rewrite T in Hp. exact Hp.
Defined.

(** X9. An armed timer defers the scheduler: until the timer fires, the
    turns of the actor loop start no background fetch and create no timer,
    however old the entries are, and the armed timer is kept; no turn can
    run out of budget. *)
Theorem an_armed_timer_defers_the_scheduler (fuel : nat) (evs : list event) :
  forall (w : world) (d : Duration),
    timer (keep w) = Some d ->
    TimerFired ∉ evs ->
    match run_loop fuel evs w with
    | Ok (_, w', o) =>
        timer (keep w') = Some d /\ launches o = [] /\ timers o = []
    | Panic _ => True
    | Blocked | OutOfFuel => False
    end.
Proof.
  induction evs as [|ev evs IH]; intros w d T Hno; simpl.
  - auto.
  - destruct ev as [msg|]; [|exfalso; apply Hno, list_elem_of_here].
    assert (Hno' : TimerFired ∉ evs).
    { intros Hin. now apply Hno, list_elem_of_further. }
    unfold run_turn, mbind, M_bind, bind.
    destruct (handle_message_outcome msg w) as [(w1 & o1 & H) | (H & _)];
      rewrite H; [|exact I].
    pose proof (handle_message_effects _ _ _ _ H) as ->.
    apply handle_message_inv in H as (_ & T1 & _).
    unfold serviceTimer, mbind, M_bind, bind, get_timer.
    rewrite T1, T. unfold ret. cbn beta iota. cbn [app].
    specialize (IH w1 d (eq_trans T1 T) Hno').
    destruct (run_loop fuel evs w1) as [[[[] w2] o2]| | |]; auto.
    destruct IH as (T2 & Hl & Ht).
    destruct (message_effects_start_nothing msg (keep w)) as [Hl1 Ht1].
    rewrite !app_nil_r, launches_app, timers_app, Hl, Ht, Hl1, Ht1. auto.
Qed.

Lemma an_armed_timer_defers_the_scheduler_witness :
  match run_loop 0 [Message (requestKeepMessage "/a");
                    Message (fetchingKeepMessage "/b" 1%nat)]
                 (mkWorld (mkKeep {[ "/a" := fresh_entry "/a" 0 ]} (Some 5))
                          (constant_clock (3 * expireDuration) 1)) with
  | Ok (_, w', o) => timer (keep w') = Some 5 /\ launches o = [] /\ timers o = []
  | Panic _ => True
  | Blocked | OutOfFuel => False
  end.
Proof.
  apply (an_armed_timer_defers_the_scheduler 0
           [Message (requestKeepMessage "/a");
            Message (fetchingKeepMessage "/b" 1%nat)]).
  - reflexivity.
  - intros Hin.
    repeat (apply elem_of_cons in Hin as [Hin | Hin]; [discriminate|]).
    inversion Hin.
Defined.

(** ** A pass with nothing idle *)

Lemma earliest_of_nothing_idle (now : Time) (l : list (string * entry)) :
  (forall x, x ∈ l -> idle x = false) -> earliest_of now l = now.
Proof.
  induction l as [|x l IH]; intros H; [reflexivity|].
  rewrite earliest_of_cons, (H x) by apply list_elem_of_here.
  apply IH. intros y Hy. now apply H, list_elem_of_further.
Qed.

Lemma sweep_effects_nothing_idle (now : Time) (l : list (string * entry)) :
  (forall x, x ∈ l -> idle x = false) -> flat_map (sweep_effects now) l = [].
Proof.
  induction l as [|x l IH]; intros H; [reflexivity|].
  simpl. rewrite IH by (intros y Hy; now apply H, list_elem_of_further).
  unfold sweep_effects, expired.
  pose proof (H x (list_elem_of_here _ _)) as Hx. unfold idle in Hx.
  now rewrite Hx.
Qed.

(** X10. With nothing idle there is nothing to do: when every entry is
    fetching (or the table is empty) and no timer is armed, a scheduler pass
    returns after one turn, on any clock, having read the clock twice and
    changed nothing: no fetch is started and no timer armed. *)
Theorem a_pass_over_a_busy_table_does_nothing (fuel : nat) (w : world) :
  all_fetching (keep w) ->
  timer (keep w) = None ->
  serviceTimer (S fuel) w =
    Ok (tt, mkWorld (keep w) (clock_Now (clock_Now (clk w)).2).2,
        [Printf ("fetching expired" +:+ nl)]).
Proof.
  intros Hall T.
  assert (Hidle : forall x, x ∈ map_to_list (entries (keep w)) -> idle x = false).
  { intros [p e] Hx. apply elem_of_map_to_list in Hx.
    unfold idle. cbn. now rewrite (Hall p e Hx). }
  assert (Hsame : sweep_entry (next_reading (clk w)) <$> entries (keep w)
                  = entries (keep w)).
  { apply map_eq. intros p. rewrite lookup_fmap.
    destruct (entries (keep w) !! p) as [e|] eqn:E; [|reflexivity].
    cbn. unfold sweep_entry, expired. now rewrite (Hall p e E). }
  unfold serviceTimer, mbind, M_bind, bind, get_timer. rewrite T.
  cbn [serviceTimer_loop]. unfold mbind, M_bind, bind.
  rewrite serviceTimer_turn_runs. cbn zeta.
  unfold after_sweep. cbn [keep entries clk timer]. rewrite Hsame.
  rewrite earliest_of_nothing_idle by exact Hidle.
  rewrite sweep_effects_nothing_idle by exact Hidle.
  rewrite Z.ltb_irrefl. cbn [negb]. rewrite T.
  destruct w as [[m t] c]. cbn [keep timer] in T. subst t. reflexivity.
Qed.

Lemma a_pass_over_a_busy_table_does_nothing_witness :
  serviceTimer 1 (stuck_world_busy) =
    Ok (tt, mkWorld (keep stuck_world_busy)
                    (clock_Now (clock_Now (clk stuck_world_busy)).2).2,
        [Printf ("fetching expired" +:+ nl)]).
Proof.
  apply (a_pass_over_a_busy_table_does_nothing 0 stuck_world_busy).
  - intros p e He. unfold stuck_world_busy, one_entry in He. cbn in He.
    destruct (decide (p = "/a")) as [->|Hne].
    + vm_compute in He. now inversion He.
    + rewrite lookup_singleton_ne in He by congruence. discriminate.
  - reflexivity.
Defined.


(** ** The sweep, entry by entry *)

(** X11. The sweep raises the flag of exactly the idle entries stamped more
    than [expireDuration] (10 s) before its reading of the clock, and
    changes nothing else: it adds and removes no entry and touches no path,
    count, stamp or queue. *)
Theorem the_sweep_marks_the_overdue (w : world) :
  expireDuration = 10 * 1000000000 /\
  exists w' o,
    fetchExpired w = Ok (tt, w', o) /\
    timer (keep w') = timer (keep w) /\
    next_reading (clk w) = reading (clk w') /\
    forall p,
      match entries (keep w) !! p with
      | None => entries (keep w') !! p = None
      | Some e =>
          exists e',
            entries (keep w') !! p = Some e' /\
            same_but_flag e e' /\
            fetching (info e') =
              fetching (info e) ||
              (lastFetched (info e) + expireDuration <? reading (clk w'))
      end.
Proof.
  split; [reflexivity|].
  eexists _, _. split; [apply fetchExpired_runs|].
  cbn [keep timer entries clk]. split; [reflexivity|]. split; [reflexivity|].
  intros p. rewrite lookup_fmap.
  destruct (entries (keep w) !! p) as [e|]; [|reflexivity].
  cbn. eexists. split; [reflexivity|].
  unfold sweep_entry, expired, same_but_flag, Before, Add, next_reading. cbn.
  destruct (fetching (info e)) eqn:F; cbn; [auto|].
  destruct (_ <? _); cbn; auto.
Qed.


(** ** The order of [range] *)

Lemma sweep_launches_Permutation (now : Time) (l l' : list (string * entry)) :
  l ≡ₚ l' ->
  launches (flat_map (sweep_effects now) l) ≡ₚ
  launches (flat_map (sweep_effects now) l').
Proof.
  induction 1 as [|x l l' _ IH|x y l|l1 l2 l3 _ IH1 _ IH2]; simpl.
  - reflexivity.
  - rewrite !launches_app. now apply Permutation_app_head.
  - rewrite !launches_app, !app_assoc.
    apply Permutation_app_tail, Permutation_app_comm.
  - now rewrite IH1.
Qed.

(** X12. The order in which Go's [range] visits the entry table does not
    matter: visiting the entries in any order gives the same table after the
    sweep, the same fetches up to their order, and the same earliest stamp
    and [expiring] flag in the deadline computation. *)
Theorem the_range_order_is_immaterial (now : Time) (w : world)
    (l : list (string * entry)) :
  l ≡ₚ map_to_list (entries (keep w)) ->
  (exists o,
     range l (fetchExpired_body now) w =
       Ok (tt, mkWorld (mkKeep (sweep_entry now <$> entries (keep w))
                               (timer (keep w))) (clk w), o) /\
     launches o ≡ₚ
       launches (flat_map (sweep_effects now) (map_to_list (entries (keep w))))) /\
  shortestTimeout_range now l =
    shortestTimeout_range now (map_to_list (entries (keep w))).
Proof.
  intros Hl. split.
  - exists (flat_map (sweep_effects now) l). split.
    + destruct w as [k c]. rewrite fetchExpired_range_runs. cbn.
      now rewrite (sweep_fold_table now (entries k) l Hl).
    + now apply sweep_launches_Permutation.
  - rewrite !shortestTimeout_range_spec.
    now rewrite (earliest_of_Permutation now _ _ Hl).
Qed.

Lemma the_range_order_is_immaterial_witness :
  (exists o,
     range (reverse (map_to_list (entries (keep two_entries))))
           (fetchExpired_body (3 * expireDuration)) two_entries =
       Ok (tt, mkWorld (mkKeep (sweep_entry (3 * expireDuration)
                                  <$> entries (keep two_entries))
                               (timer (keep two_entries)))
                       (clk two_entries), o) /\
     launches o ≡ₚ
       launches (flat_map (sweep_effects (3 * expireDuration))
                          (map_to_list (entries (keep two_entries))))) /\
  shortestTimeout_range (3 * expireDuration)
      (reverse (map_to_list (entries (keep two_entries)))) =
    shortestTimeout_range (3 * expireDuration)
      (map_to_list (entries (keep two_entries))).
Proof.
  apply (the_range_order_is_immaterial (3 * expireDuration) two_entries).
  apply reverse_Permutation.
Defined.


(** ** The loop does not hang *)

Lemma refreshable_le_size (k : Keep) :
  (refreshable k <= size (entries k))%nat.
Proof.
  unfold refreshable. rewrite <- length_map_to_list.
  apply List.filter_length_le.
Qed.

Lemma only_marks_size (m m' : gmap string entry) :
  only_marks m m' -> size m' = size m.
Proof.
  intros Hm. rewrite <- !size_dom. f_equal. apply set_eq. intros p.
  rewrite !elem_of_dom. specialize (Hm p).
  destruct Hm; split; intros [? ?]; try discriminate; eauto.
Qed.

Lemma handle_message_size (msg : keepMessage) (w w' : world) (o : list effect) :
  handle_message msg w = Ok (tt, w', o) ->
  (size (entries (keep w')) <= S (size (entries (keep w))))%nat.
Proof.
  intros H. apply handle_message_inv in H as (-> & _).
  rewrite map_size_insert. destruct (_ !! _); unfold id; lia.
Qed.

Lemma bind_no_hang {A B} (m : M A) (f : A -> M B) (w : world) :
  m w <> OutOfFuel ->
  (forall a w1 o1, m w = Ok (a, w1, o1) -> f a w1 <> OutOfFuel) ->
  (m ≫= f) w <> OutOfFuel.
Proof.
  unfold mbind, M_bind, bind. intros Hm Hf.
  destruct (m w) as [[[a w1] o1]| | |]; try discriminate; [|congruence].
  specialize (Hf a w1 o1 eq_refl).
  destruct (f a w1) as [[[b w2] o2]| | |]; congruence || discriminate.
Qed.

Lemma run_turn_no_hang (fuel : nat) (ev : event) (w : world) :
  advancing (clk w) ->
  (S (size (entries (keep w))) < fuel)%nat ->
  run_turn fuel ev w <> OutOfFuel.
Proof.
  intros Hadv Hfuel. unfold run_turn. apply bind_no_hang.
  - destruct ev as [msg|].
    + destruct (handle_message_outcome msg w) as [(w1 & o1 & H) | (H & _)];
        rewrite H; discriminate.
    + unfold mbind, M_bind, bind, get_timer, set_timer, blocked.
      destruct (timer (keep w)); discriminate.
  - intros [] w1 o1 Hsel.
    assert (H1 : advancing (clk w1) /\
                 (size (entries (keep w1)) <= S (size (entries (keep w))))%nat).
    { destruct ev as [msg|].
      - pose proof (handle_message_size _ _ _ _ Hsel) as Hsize.
        apply handle_message_inv in Hsel as (_ & _ & Hl & _).
        split; [eapply advancing_later; eassumption | exact Hsize].
      - unfold mbind, M_bind, bind, get_timer, set_timer, blocked in Hsel.
        destruct (timer (keep w)); inversion Hsel; subst. cbn. split; [auto | lia]. }
    destruct H1 as [Hadv1 Hsize].
    assert (Hr : (refreshable (keep w1) < fuel)%nat).
    { pose proof (refreshable_le_size (keep w1)). lia. }
    destruct (serviceTimer_runs w1 fuel Hadv1 Hr) as (w2 & o2 & ->).
    discriminate.
Qed.

Lemma run_turn_size (fuel : nat) (ev : event) (w w' : world) (o : list effect) :
  run_turn fuel ev w = Ok (tt, w', o) ->
  later_clock (clk w) (clk w') /\
  (size (entries (keep w')) <= S (size (entries (keep w))))%nat.
Proof.
  intros H. apply run_turn_inv in H as (w1 & o1 & o2 & Hsel & Hsvc).
  apply serviceTimer_inv in Hsvc as [Hm Hl].
  rewrite (only_marks_size _ _ Hm).
  destruct ev as [msg|].
  - pose proof (handle_message_size _ _ _ _ Hsel) as Hsize.
    apply handle_message_inv in Hsel as (_ & _ & Hl1 & _).
    split; [eapply later_clock_trans; eassumption | exact Hsize].
  - destruct Hsel as [-> _]. cbn in *. split; [exact Hl | lia].
Qed.

(** X13. On a clock that advances at every reading the actor never hangs in
    the scheduler: with a turn budget above the number of entries the table
    can reach, a run over any events ends by processing them all, by the
    panic of a stray [fetched], or by an event that is not ready, and never
    by exhausting the budget. *)
Theorem the_loop_never_spins_on_an_advancing_clock (fuel : nat)
    (evs : list event) :
  forall w : world,
    advancing (clk w) ->
    (size (entries (keep w)) + length evs < fuel)%nat ->
    run_loop fuel evs w <> OutOfFuel.
Proof.
  induction evs as [|ev evs IH]; intros w Hadv Hfuel; [discriminate|].
  simpl in Hfuel. simpl. apply bind_no_hang.
  - apply run_turn_no_hang; [exact Hadv | lia].
  - intros [] w1 o1 Hturn.
    apply run_turn_size in Hturn as [Hl Hsize].
    apply IH; [eapply advancing_later; eassumption | lia].
Qed.

Lemma the_loop_never_spins_on_an_advancing_clock_witness :
  run_loop 5 [Message (requestKeepMessage "/b");
              Message (fetchedKeepMessage "/a" None);
              Message (fetchingKeepMessage "/c" 1%nat)]
           fetching_with_waiters <> OutOfFuel.
Proof.
  apply (the_loop_never_spins_on_an_advancing_clock 5).
  - apply constant_clock_advancing. reflexivity.
  - vm_compute. lia.
Defined.


(** ** Reply channels *)













(** * Further properties of the fetch executor *)

Module FetchMore.
Import Fetch FetchObservations.

(** X14. [fetch] returns an error only for a request that could not be built
    or sent, and then that error; a response of the wrong content type and a
    failed copy both return nil. *)
Theorem fetch_returns_only_transport_errors (u : upstream) (p : string)
    (responseWriter : option ResponseWriter) :
  (fetch u p responseWriter).1 = transport_error u p.
Proof.
  unfold fetch, fetch_body, transport_error.
  destruct (http_NewRequest u "GET" ("http://localhost:8085" +:+ p)) as [req|e1];
    [|reflexivity].
  destruct (http_Do u req) as [resp|e2]; [|reflexivity].
  destruct (negb _); [reflexivity|].
  destruct (io_Copy u responseWriter (Body resp)) as [data [e3|]]; reflexivity.
Qed.

(** X15. What a sink is told: without a sink [fetch] writes no status
    anywhere; with one, it writes exactly one status once a response has
    arrived, 200 for a JSON response (before the copy, whether or not the
    copy then succeeds) and 400 for any other, and none when the request
    failed. *)
Theorem a_sink_gets_one_status (u : upstream) (p : string)
    (responseWriter : option ResponseWriter) :
  statuses (fetch u p responseWriter).2 =
    match responseWriter, response u p with
    | Some w, Some resp =>
        if String.eqb (mediaType (ContentType resp)) "application/json"
        then [(w, 200)] else [(w, 400)]
    | _, _ => []
    end.
Proof.
  unfold fetch, fetch_body, response.
  destruct (http_NewRequest u "GET" ("http://localhost:8085" +:+ p)) as [req|e1];
    [|now destruct responseWriter].
  destruct (http_Do u req) as [resp|e2]; [|now destruct responseWriter].
  destruct (String.eqb _ _); cbn [negb].
  - destruct (io_Copy u responseWriter (Body resp)) as [data [e3|]];
      now destruct responseWriter.
  - now destruct responseWriter.
Qed.

(** X16. The cache is written exactly when data is reported: [fetch] starts
    at most one [Cache.Set], for its own path and with the very bytes its
    [fetched] message carries, before sending that message; a report without
    data comes with no cache write. *)
Theorem the_cache_gets_what_is_reported (u : upstream) (p : string)
    (responseWriter : option ResponseWriter) :
  exists dataPtr,
    List.filter is_outcome (fetch u p responseWriter).2 =
      match dataPtr with
      | Some data => [Go_Cache_Set p data]
      | None => []
      end ++ [sendFetchedMessage p dataPtr].
Proof.
  unfold fetch, fetch_body.
  destruct (http_NewRequest u "GET" ("http://localhost:8085" +:+ p)) as [req|e1];
    [|now exists None].
  destruct (http_Do u req) as [resp|e2]; [|now exists None].
  destruct (negb _).
  - exists None. now destruct responseWriter.
  - destruct (io_Copy u responseWriter (Body resp)) as [data [e3|]].
    + exists None. now destruct responseWriter.
    + exists (Some data). now destruct responseWriter.
Qed.

(** The first piece of a split and the rest of the string. *)
Lemma mediaType_cut (s : string) :
  s = mediaType s \/ exists params, s = mediaType s +:+ String ";" params.
Proof.
  unfold mediaType. induction s as [|c s IH]; simpl; [now left|].
  destruct (Ascii.eqb_spec c ";") as [->|Hc].
  - right. now exists s.
  - pose proof (FetchFacts.Split_nonempty s ";") as Hne.
    destruct (Split s ";") as [|piece pieces]; [contradiction|].
    simpl in *. destruct IH as [IH | [params IH]].
    + left. now rewrite <- IH.
    + right. exists params. now rewrite IH at 1.
Qed.

Lemma json_has_no_semicolon :
  forall c, In c (list_ascii_of_string "application/json") -> c <> ";"%char.
Proof.
  intros c Hc. vm_compute in Hc.
  repeat (destruct Hc as [<- | Hc]; [discriminate|]). destruct Hc.
Qed.

Lemma mediaType_is_json (contentType : string) :
  mediaType contentType = "application/json" <-> json_header contentType.
Proof.
  unfold json_header. split.
  - intros H. destruct (mediaType_cut contentType) as [Hs | [params Hs]];
      rewrite H in Hs.
    + now left.
    + right. exists params. exact Hs.
  - intros [-> | [params ->]].
    + reflexivity.
    + apply (FetchFacts.mediaType_params "application/json" params).
      exact json_has_no_semicolon.
Qed.

(** X17. Which responses [fetch] takes.  When a response arrives and its
    body copies without error, what [fetch] does is decided by the
    [Content-Type] header as sent: if it is [application/json] itself, or
    [application/json;] followed by anything, [fetch] sends the sink its
    200, hands the bytes to the cache and reports them; for every other
    header (a space before the [;], another case, a leading space, none) it
    rejects, reporting no data. *)
Theorem the_accepted_content_types (u : upstream) (p : string)
    (responseWriter : option ResponseWriter) (resp : Response) (data : bytes) :
  response u p = Some resp ->
  io_Copy u responseWriter (Body resp) = (data, None) ->
  (json_header (ContentType resp) ->
   fetch u p responseWriter =
     (None, headers responseWriter ++
            [Go_Cache_Set p data; sendFetchedMessage p (Some data)])) /\
  (~ json_header (ContentType resp) ->
   fetch u p responseWriter =
     (None, rejection responseWriter ++
            [Printf ("not JSON" +:+ nl); sendFetchedMessage p None])).
Proof.
  unfold response, fetch, fetch_body. intros Hresp Hcopy.
  destruct (http_NewRequest u "GET" ("http://localhost:8085" +:+ p)) as [req|e1];
    [|discriminate].
  destruct (http_Do u req) as [resp'|e2]; [|discriminate].
  inversion Hresp; subst resp'. clear Hresp.
  rewrite Hcopy.
  destruct (String.eqb_spec (mediaType (ContentType resp)) "application/json")
    as [Hjson|Hother]; cbn [negb].
  - apply mediaType_is_json in Hjson. split; [|contradiction].
    intros _. unfold headers. now rewrite <- app_assoc.
  - split.
    + intros H. apply mediaType_is_json in H. contradiction.
    + intros _. unfold rejection. now rewrite <- app_assoc.
Qed.

Lemma the_accepted_content_types_witness :
  fetch (answering "application/json; charset=utf-8" [Byte.x7b; Byte.x7d])
        "/a" (Some 1%nat)
    = (None, [WriteHeader 1%nat 200;
              Go_Cache_Set "/a" [Byte.x7b; Byte.x7d];
              sendFetchedMessage "/a" (Some [Byte.x7b; Byte.x7d])]).
Proof.
  apply (the_accepted_content_types
           (answering "application/json; charset=utf-8" [Byte.x7b; Byte.x7d])
           "/a" (Some 1%nat)
           (mkResponse "application/json; charset=utf-8" 0)
           [Byte.x7b; Byte.x7d]);
    [reflexivity | reflexivity |].
  right. now exists " charset=utf-8".
Defined.

Example rejected_content_types :
  ~ json_header "application/json ; charset=utf-8" /\
  ~ json_header "Application/JSON" /\
  ~ json_header " application/json" /\
  ~ json_header "" /\
  json_header "application/json;charset=utf-8".
Proof.
  repeat split; try (rewrite <- mediaType_is_json; vm_compute; discriminate).
  rewrite <- mediaType_is_json. reflexivity.
Qed.

End FetchMore.
